(** * k-mesh utilities of aiida-yambo-wannier90

    A shallow embedding of [aiida_yambo_wannier90/calculations/kmesh.py]:
    the integer search [find_commensurate_integers], its axis-wise driver
    [find_commensurate_meshes] and the point matcher [kmapper], followed by
    the properties stated for them.

    Python integers are unbounded and are modelled by [Z].  Exceptions are
    modelled by an error monad, the recursion of
    [find_commensurate_integers] by a fuel argument (the number of nested
    activations allowed).  The binary64 numbers of the solver, which come
    from integers by correctly rounded operations only, are modelled by
    their values; those of the mapper, which are arbitrary array entries,
    by the standard library's [SpecFloat].  The [debug_plot] argument only
    draws pictures and is left out. *)

From Stdlib Require Import ZArith QArith Qround Lia Bool Sorted.
From Stdlib Require Import Floats.SpecFloat.
From Stdlib Require Qcanon.
From stdpp Require Import base tactics option list numbers.

Local Open Scope Z_scope.

(** ** Outcomes of a Python call *)

Inductive py_exception : Type :=
  | ZeroDivisionError
  | ValueError
  | IndexError
  | OverflowError.

Inductive outcome (A : Type) : Type :=
  | Return (a : A)
  | Raise (e : py_exception)
  | OutOfFuel.

Arguments Return {A} a.
Arguments Raise {A} e.
Arguments OutOfFuel {A}.

#[global] Instance outcome_ret : MRet outcome := @Return.

#[global] Instance outcome_bind : MBind outcome := fun A B f m =>
  match m with
  | Return a => f a
  | Raise e => Raise e
  | OutOfFuel => OutOfFuel
  end.

(** ** Binary64 numbers by value *)

(** A finite binary64 number is the rational it stands for; the two
    infinities are kept apart.  (No NaN and no negative zero is ever told
    apart from the other values by the solver.)  Every operation is the
    exact one followed by [round], rounding to nearest with ties to even. *)
Module Binary64.

Inductive t : Type :=
  | Finite (x : Q)
  | PosInf
  | NegInf.

(** The integer nearest to [n / d], for [d > 0]; the even one on a tie. *)
Definition nearest_even (n d : Z) : Z :=
  let q := n `div` d in
  let r := n `mod` d in
  if decide (2 * r < d) then q
  else if decide (d < 2 * r) then q + 1
  else if Z.even q then q else q + 1.

(** The integer [l] with [2^l <= n / d < 2^(l+1)], for [n, d > 0]. *)
Definition ilog2 (n d : Z) : Z :=
  let t := Z.log2 n - Z.log2 d in
  if decide (d * 2 ^ Z.max t 0 ≤ n * 2 ^ Z.max (- t) 0) then t else t - 1.

(** [n / d > 0] rounded to 53 significant bits, to a multiple of [2^-1074]
    when it is that small; [None] when the result is [2^1024] or more. *)
Definition round_pos (n d : Z) : option Q :=
  let e := Z.max (ilog2 n d - 52) (-1074) in
  let p := Z.max e 0 in
  let s := Z.max (- e) 0 in
  let m := nearest_even (n * 2 ^ s) (d * 2 ^ p) in
  if decide (2 ^ 1024 * 2 ^ s ≤ m * 2 ^ p) then None
  else Some (Qred (m * 2 ^ p # Z.to_pos (2 ^ s))).

Definition round (x : Q) : t :=
  match Qnum x with
  | 0 => Finite 0
  | Z.pos n =>
      match round_pos (Z.pos n) (Z.pos (Qden x)) with
      | Some v => Finite v
      | None => PosInf
      end
  | Z.neg n =>
      match round_pos (Z.pos n) (Z.pos (Qden x)) with
      | Some v => Finite (- v)
      | None => NegInf
      end
  end.

(** The conversion of a Python integer: the nearest binary64 number, an
    [OverflowError] when the integer is too large for one. *)
Definition of_int (n : Z) : outcome Q :=
  match round (inject_Z n) with
  | Finite v => Return v
  | _ => Raise OverflowError
  end.

(** [x + y] on two finite numbers; an infinity when the sum is too large. *)
Definition add (x y : Q) : t := round (x + y).

(** [x < y]. *)
Definition ltb (x y : t) : bool :=
  match x, y with
  | Finite u, Finite v => match (u ?= v)%Q with Lt => true | _ => false end
  | NegInf, (Finite _ | PosInf) => true
  | Finite _, PosInf => true
  | _, _ => false
  end.

End Binary64.

(** ** The Python and numpy primitives the module uses *)

Module Py.

(** [range(start, stop)], empty when [stop <= start]. *)
Definition range (start stop : Z) : list Z := seqZ start (stop - start).

(** [a / b] on integers: a [ZeroDivisionError] for a zero divisor;
    otherwise the binary64 number nearest to the quotient, and an
    [OverflowError] when the quotient is too large for one. *)
Definition truediv (a b : Z) : outcome Q :=
  if decide (b = 0) then Raise ZeroDivisionError
  else match Binary64.round (inject_Z a / inject_Z b) with
       | Binary64.Finite k => Return k
       | _ => Raise OverflowError
       end.

(** [math.ceil] of a finite number. *)
Definition ceil (x : Q) : Z := Qceiling x.

(** [a % b]: the sign of the result follows the divisor, as [Z.modulo]. *)
Definition mod_ (a b : Z) : outcome Z :=
  if decide (b = 0) then Raise ZeroDivisionError else Return (a `mod` b).

(** [a // b], floor division, as [Z.div]. *)
Definition floordiv (a b : Z) : outcome Z :=
  if decide (b = 0) then Raise ZeroDivisionError else Return (a `div` b).

(** [l[i]] for an integer index, negative indices counting from the end. *)
Definition getitem {A} (l : list A) (i : Z) : outcome A :=
  let j := if decide (i < 0) then i + Z.of_nat (length l) else i in
  if decide (j < 0) then Raise IndexError
  else match l !! Z.to_nat j with
       | Some x => Return x
       | None => Raise IndexError
       end.

(** [for x in xs: s = body(x, s)], with the loop state passed along. *)
Fixpoint for_each {A S : Type} (xs : list A) (body : A → S → outcome S)
    (s : S) : outcome S :=
  match xs with
  | [] => Return s
  | x :: xs' => s' ← body x s; for_each xs' body s'
  end.

(** [[f(x) for x in xs]]: the calls are made in order and the first
    exception ends the evaluation. *)
Fixpoint comprehension {A B : Type} (f : A → outcome B) (xs : list A)
    : outcome (list B) :=
  match xs with
  | [] => Return []
  | x :: xs' => y ← f x; ys ← comprehension f xs'; Return (y :: ys)
  end.

End Py.

(** IEEE 754 binary64 numbers, the [float64] entries of the arrays returned
    by [get_kpoints], with the arithmetic of the standard library's
    [SpecFloat]. *)
Module Float64.

Definition prec : Z := 53.
Definition emax : Z := 1024.

Definition t : Type := spec_float.

(** The number [m * 2^e], rounded to nearest even if need be. *)
Definition of_dyadic (m e : Z) : t := binary_normalize prec emax m e false.
Definition of_Z (n : Z) : t := of_dyadic n 0.

Definition sub : t → t → t := SFsub prec emax.
Definition mul : t → t → t := SFmul prec emax.
Definition div : t → t → t := SFdiv prec emax.
Definition eqb : t → t → bool := SFeqb.

(** [np.rint]: the nearest integer, halfway cases going to the even one;
    the sign is kept, also on a zero result. *)
Definition rint (x : t) : t :=
  match x with
  | S754_finite s m e =>
      if decide (0 ≤ e) then x
      else
        let n := - e in
        let q := Z.shiftr (Z.pos m) n in
        let r := Z.land (Z.pos m) (Z.ones n) in
        let half := Z.shiftl 1 (n - 1) in
        let up :=
          if decide (half < r) then true
          else if decide (r = half) then Z.odd q else false in
        let i := if up then q + 1 else q in
        binary_normalize prec emax (if s then - i else i) 0 s
  | _ => x
  end.

End Float64.

Module Np.

Fixpoint argmin_from (rest : list Binary64.t) (i best : nat)
    (least : Binary64.t) : nat :=
  match rest with
  | [] => best
  | c :: rest' =>
      if Binary64.ltb c least then argmin_from rest' (S i) i c
      else argmin_from rest' (S i) best least
  end.

(** [np.argmin] on a list of numbers: the index of the first occurrence
    of the minimum; a [ValueError] on an empty sequence. *)
Definition argmin (costs : list Binary64.t) : outcome nat :=
  match costs with
  | [] => Raise ValueError
  | c :: rest => Return (argmin_from rest 1 0 c)
  end.

(** [np.around(x, decimals)] for [decimals > 0], as numpy computes it:
    multiply by [10 ** decimals], [rint], divide again. *)
Definition around (x : Float64.t) (decimals : Z) : Float64.t :=
  let f := Float64.of_Z (10 ^ decimals) in
  Float64.div (Float64.rint (Float64.mul x f)) f.

(** [x in opt] for an array [opt]: some entry compares equal to [x]. *)
Definition contains (opt : list Float64.t) (x : Float64.t) : bool :=
  existsb (λ o, Float64.eqb o x) opt.

End Np.

(** ** [find_commensurate_integers] *)

(** [_[0] ** scaling_dense + _[1] ** scaling_coarse] with both scalings
    [1.0]: raising an integer to the float [1.0] converts it to binary64
    (an [OverflowError] if it is too large) and leaves the number as it is;
    the two numbers are then added in binary64. *)
Definition cost (s : Z * Z) : outcome Binary64.t :=
  x ← Binary64.of_int s.1;
  y ← Binary64.of_int s.2;
  Return (Binary64.add x y).

(** The body of [for new_coarse in range(coarse, lim)]. *)
Definition scan_coarse (new_dense new_coarse : Z)
    (valid_solutions : list (Z * Z)) : outcome (list (Z * Z)) :=
  mod_ ← Py.mod_ new_dense new_coarse;
  if decide (mod_ = 0) then
    let solution := (new_dense, new_coarse) in
    Return (valid_solutions ++ [solution])
  else Return valid_solutions.

(** The body of [for new_dense in range(dense, coarse * khigh)]. *)
Definition scan_dense (coarse klow : Z) (include_identical : bool)
    (new_dense : Z) (valid_solutions : list (Z * Z))
    : outcome (list (Z * Z)) :=
  q ← Py.floordiv new_dense klow;
  let lim := if include_identical then q + 1 else q in
  Py.for_each (Py.range coarse lim) (scan_coarse new_dense) valid_solutions.

(** The list [valid_solutions] as it stands when the two loops are over
    (reached only with [dense > coarse]). *)
Definition candidates (dense coarse : Z) (include_identical : bool)
    : outcome (list (Z * Z)) :=
  k ← Py.truediv dense coarse;
  let klow := 1 in
  let khigh := Py.ceil k in
  let valid_solutions := [] in
  let new_dense := coarse * khigh in
  let solution := (new_dense, coarse) in
  let valid_solutions := valid_solutions ++ [solution] in
  let valid_solutions :=
    if include_identical then
      let solution := (dense, dense) in
      valid_solutions ++ [solution]
    else valid_solutions in
  Py.for_each (Py.range dense (coarse * khigh))
    (scan_dense coarse klow include_identical) valid_solutions.

(** The minimal increment: the first candidate of least cost. *)
Definition select (valid_solutions : list (Z * Z)) : outcome (Z * Z) :=
  costs ← Py.comprehension cost valid_solutions;
  idx ← Np.argmin costs;
  Py.getitem valid_solutions (Z.of_nat idx).

Fixpoint find_commensurate_integers (fuel : nat) (dense coarse : Z)
    (include_identical : bool) : outcome (Z * Z) :=
  match fuel with
  | O => OutOfFuel
  | S fuel' =>
      if decide (dense ≤ coarse) then
        if include_identical then
          let solution := (coarse, coarse) in
          Return solution
        else
          find_commensurate_integers fuel' (coarse + 1) coarse false
      else
        valid_solutions ← candidates dense coarse include_identical;
        select valid_solutions
  end.

(** ** [find_commensurate_meshes] *)

(** The dictionary the function returns, the two [KpointsData] nodes being
    represented by the mesh they were given with [set_kpoints_mesh]. *)
Record meshes : Type := Meshes {
  dense_mesh : list Z;
  coarse_mesh : list Z
}.

(** [dense] and [coarse] are the two lists of three integers that
    [get_mesh_from_kpoints], a function of another package, extracts from
    the input nodes. *)
Definition find_commensurate_meshes (fuel : nat) (dense coarse : list Z)
    : outcome meshes :=
  let new_dense := [0; 0; 0] in
  let new_coarse := [0; 0; 0] in
  '(new_dense, new_coarse) ←
    Py.for_each (Py.range 0 3)
      (λ i '(new_dense, new_coarse),
         d ← Py.getitem dense i;
         c ← Py.getitem coarse i;
         '(nd, nc) ← find_commensurate_integers fuel d c true;
         Return (<[Z.to_nat i := nd]> new_dense,
                 <[Z.to_nat i := nc]> new_coarse))
      (new_dense, new_coarse);
  Return {| dense_mesh := new_dense; coarse_mesh := new_coarse |}.

(** ** [kmapper] *)

(** A row of a k-point array: three crystal coordinates. *)
Definition kpoint : Type := Float64.t * Float64.t * Float64.t.

Definition kpoint_sub (i j : kpoint) : kpoint :=
  let '(i0, i1, i2) := i in
  let '(j0, j1, j2) := j in
  (Float64.sub i0 j0, Float64.sub i1 j1, Float64.sub i2 j2).

Definition kpoint_around (q : kpoint) (decimals : Z) : kpoint :=
  let '(q0, q1, q2) := q in
  (Np.around q0 decimals, Np.around q1 decimals,
   Np.around q2 decimals).

(** [np.array([0, 1, -1])], converted to [float64] by the comparison. *)
Definition opt : list Float64.t :=
  [Float64.of_Z 0; Float64.of_Z 1; Float64.of_Z (-1)].

(** The inner loop, [for j in dense_mesh], started with [count] and
    [k_list] as they stand. *)
Fixpoint kmapper_scan (i : kpoint) (dense_mesh : list kpoint) (count : Z)
    (k_list : list Z) : list Z :=
  match dense_mesh with
  | [] => k_list
  | j :: dense_mesh' =>
      let q := kpoint_sub i j in
      let '(q0, q1, q2) := kpoint_around q 5 in
      let k_list :=
        if Np.contains opt q0 && Np.contains opt q1
           && Np.contains opt q2
        then k_list ++ [count] else k_list in
      kmapper_scan i dense_mesh' (count + 1) k_list
  end.

Definition kmapper (dense_mesh coarse_mesh : list kpoint)
    (start_band end_band : Z) : list (Z * Z * Z * Z) :=
  let k_list :=
    fold_left (λ k_list i, let count := 1 in
                           kmapper_scan i dense_mesh count k_list)
      coarse_mesh [] in
  let qpkrange := (λ x, (x, x, start_band, end_band)) <$> k_list in
  qpkrange.

(** ** Vocabulary of the statements *)

(** [m] is the least entry of [costs] and [r] the first index holding it. *)
Definition first_minimum (costs : list Z) (r : nat) (m : Z) : Prop :=
  costs !! r = Some m ∧
  ∀ j c, costs !! j = Some c → m ≤ c ∧ ((j < r)%nat → m < c).

(** The sum [d + c] of a pair, the cost that the binary64 computation
    stands for. *)
Definition total (s : Z * Z) : Z := s.1 + s.2.

(** [s] is the first pair of least sum in [valid_solutions]. *)
Definition cheapest (valid_solutions : list (Z * Z)) (s : Z * Z) : Prop :=
  ∃ idx : nat,
    valid_solutions !! idx = Some s ∧
    ∀ (j : nat) t, valid_solutions !! j = Some t →
      total s ≤ total t ∧ ((j < idx)%nat → total s < total t).

(** [coarse * khigh], the dense count of the first candidate. *)
Definition ceiling_multiple (dense coarse : Z) : Z :=
  coarse * - ((- dense) `div` coarse).

(** What every candidate of the pool satisfies when [1 <= coarse < dense]. *)
Definition admissible (dense coarse : Z) (s : Z * Z) : Prop :=
  s.1 `mod` s.2 = 0 ∧ dense ≤ s.1 ≤ ceiling_multiple dense coarse
  ∧ coarse ≤ s.2.

(** The coordinates [0.0], [1.0] and [0.5]. *)
Definition zero : Float64.t := Float64.of_Z 0.
Definition one : Float64.t := Float64.of_Z 1.
Definition half : Float64.t := Float64.of_dyadic 1 (-1).

(** The coarse point set [[(0,0,0)]] and the two dense point sets
    [[(0,0,0), (1,0,0), (0.5,0,0)]] and [[(0,0,0), (1,0,0)]]. *)
Definition coarse_origin : list kpoint := [(zero, zero, zero)].
Definition dense_three : list kpoint :=
  [(zero, zero, zero); (one, zero, zero); (half, zero, zero)].
Definition dense_two : list kpoint :=
  [(zero, zero, zero); (one, zero, zero)].

(** The pairs that the loop over [new_coarse] adds for one [new_dense], in
    the order in which it adds them. *)
Definition divisor_pairs (coarse : Z) (include_identical : bool)
    (new_dense : Z) : list (Z * Z) :=
  let lim := if include_identical then new_dense + 1 else new_dense in
  (λ new_coarse, (new_dense, new_coarse))
    <$> filter (λ new_coarse, new_dense `mod` new_coarse = 0)
          (Py.range coarse lim).

(** The candidate pool written out, for a first candidate with dense
    count [top]: that candidate, then [(dense, dense)] if identical pairs
    are allowed, then the divisor pairs of every [new_dense] below [top]. *)
Definition pool_from (top dense coarse : Z) (include_identical : bool)
    : list (Z * Z) :=
  [(top, coarse)]
  ++ (if include_identical then [(dense, dense)] else [])
  ++ (Py.range dense top ≫= divisor_pairs coarse include_identical).

(** The pool when [top] is the multiple of [coarse] at or above [dense]. *)
Definition pool (dense coarse : Z) (include_identical : bool)
    : list (Z * Z) :=
  pool_from (ceiling_multiple dense coarse) dense coarse include_identical.

(** A pair of counts at or above [(dense, coarse)] whose second component
    divides the first, the two being different unless identical pairs are
    allowed. *)
Definition commensurate_above (dense coarse : Z) (include_identical : bool)
    (s : Z * Z) : Prop :=
  dense ≤ s.1 ∧ coarse ≤ s.2 ∧ s.1 `mod` s.2 = 0
  ∧ (include_identical = false → s.2 < s.1).

(** The test of [kmapper] on one coarse point [i] and one dense point [j]. *)
Definition matches (i j : kpoint) : bool :=
  let '(q0, q1, q2) := kpoint_around (kpoint_sub i j) 5 in
  Np.contains opt q0 && Np.contains opt q1 && Np.contains opt q2.

(** A zero or a finite non-zero number: neither an infinity nor a NaN. *)
Definition is_finite (x : Float64.t) : bool :=
  match x with
  | S754_zero _ | S754_finite _ _ _ => true
  | _ => false
  end.

Definition kpoint_finite (i : kpoint) : bool :=
  let '(i0, i1, i2) := i in is_finite i0 && is_finite i1 && is_finite i2.

(** What one axis of the result of [find_commensurate_meshes] owes to the
    same axis of its inputs: [d'] is a multiple of [c'], neither count has
    decreased, and the coarse count is not above the dense one. *)
Definition axis_commensurate (d c d' c' : Z) : Prop :=
  d' `mod` c' = 0 ∧ d ≤ d' ∧ c ≤ c' ∧ 1 ≤ c' ≤ d'.

(** * Properties *)

(** ** Rounding to binary64 *)

Lemma nearest_even_bounds (n d : Z) :
  0 < d →
  n `div` d ≤ Binary64.nearest_even n d ≤ n `div` d + 1.
Proof.
  intros Hd. unfold Binary64.nearest_even.
  repeat case_decide; try lia; destruct (Z.even _); lia.
Qed.

Lemma nearest_even_exact (n d : Z) :
  0 < d → n `mod` d = 0 → Binary64.nearest_even n d = n `div` d.
Proof.
  intros Hd Hr. unfold Binary64.nearest_even. rewrite Hr.
  by rewrite decide_True by lia.
Qed.

Lemma nearest_even_up (n d : Z) :
  d < 2 * (n `mod` d) → Binary64.nearest_even n d = n `div` d + 1.
Proof.
  intros Hr. unfold Binary64.nearest_even.
  rewrite decide_False by lia. by rewrite decide_True by lia.
Qed.

Lemma nearest_even_down (n d : Z) :
  2 * (n `mod` d) < d → Binary64.nearest_even n d = n `div` d.
Proof. intros Hr. unfold Binary64.nearest_even. by rewrite decide_True by lia. Qed.

Lemma ilog2_range (n d : Z) :
  Z.log2 n - Z.log2 d - 1 ≤ Binary64.ilog2 n d ≤ Z.log2 n - Z.log2 d.
Proof. unfold Binary64.ilog2. case_decide; lia. Qed.

Lemma ilog2_lower (n d : Z) :
  0 < n → 0 < d →
  d * 2 ^ Z.max (Binary64.ilog2 n d) 0 ≤ n * 2 ^ Z.max (- Binary64.ilog2 n d) 0.
Proof.
  intros Hn Hd. unfold Binary64.ilog2.
  set (t := Z.log2 n - Z.log2 d). case_decide as Htest; [done|].
  pose proof (Z.log2_spec n Hn) as [Hn1 _].
  pose proof (Z.log2_spec d Hd) as [_ Hd2].
  pose proof (Z.log2_nonneg n). pose proof (Z.log2_nonneg d).
  destruct (decide (1 ≤ t)) as [Ht|Ht].
  - rewrite Z.max_l, Z.max_r by lia. rewrite Z.pow_0_r, Z.mul_1_r.
    assert (2 ^ Z.log2 n = 2 ^ (Z.log2 d + 1) * 2 ^ (t - 1)) as Hpow.
    { rewrite <- Z.pow_add_r by lia. f_equal. lia. }
    assert (0 < 2 ^ (t - 1)) by (apply Z.pow_pos_nonneg; lia).
    nia.
  - rewrite Z.max_r, Z.max_l by lia. rewrite Z.pow_0_r, Z.mul_1_r.
    assert (2 ^ (Z.log2 d + 1) = 2 ^ Z.log2 n * 2 ^ (- (t - 1))) as Hpow.
    { rewrite <- Z.pow_add_r by lia. f_equal. lia. }
    assert (0 < 2 ^ (- (t - 1))) by (apply Z.pow_pos_nonneg; lia).
    nia.
Qed.

Lemma div_mod_scaled (n d k : Z) :
  0 < d → 0 < k →
  let r := n `mod` d in
  (n * k) `div` d = (n `div` d) * k + (r * k) `div` d
  ∧ (n * k) `mod` d = (r * k) `mod` d.
Proof.
  intros Hd Hk r.
  pose proof (Z.div_mod n d ltac:(lia)) as Hn.
  pose proof (Z.div_mod (r * k) d ltac:(lia)) as Hrk.
  pose proof (Z.mod_pos_bound (r * k) d Hd) as Hg.
  assert (n * k = d * (n `div` d * k + (r * k) `div` d) + (r * k) `mod` d)
    as Heq by (subst r; nia).
  split.
  - symmetry. eapply Z.div_unique_pos; [exact Hg|exact Heq].
  - symmetry. eapply Z.mod_unique_pos; [exact Hg|exact Heq].
Qed.

Lemma round_pos_small (n d : Z) :
  0 < n < 2 ^ 53 → 0 < d < 2 ^ 53 →
  ∃ s m,
    0 ≤ s
    ∧ Binary64.round_pos n d = Some (Qred (m # Z.to_pos (2 ^ s)))
    ∧ (n `mod` d = 0 → m = n `div` d * 2 ^ s)
    ∧ (n `mod` d ≠ 0 → n `div` d * 2 ^ s < m < (n `div` d + 1) * 2 ^ s).
Proof.
  intros [Hn Hn53] [Hd Hd53].
  pose proof (ilog2_range n d) as Hl.
  pose proof (ilog2_lower n d Hn Hd) as Hlow.
  assert (Z.log2 n < 53) by (by apply Z.log2_lt_pow2).
  assert (Z.log2 d < 53) by (by apply Z.log2_lt_pow2).
  pose proof (Z.log2_nonneg n). pose proof (Z.log2_nonneg d).
  unfold Binary64.round_pos.
  set (l := Binary64.ilog2 n d) in *.
  replace (Z.max (l - 52) (-1074)) with (l - 52) by lia.
  replace (Z.max (l - 52) 0) with 0 by lia.
  replace (Z.max (- (l - 52)) 0) with (52 - l) by lia.
  set (s := 52 - l). rewrite Z.pow_0_r, !Z.mul_1_r.
  assert (Hs : 0 ≤ s) by (subst s; lia).
  assert (Hpow : 0 < 2 ^ s) by (by apply Z.pow_pos_nonneg).
  assert (Hdlt : d < 2 * 2 ^ s).
  { destruct (decide (0 ≤ l)) as [Hl0|Hl0].
    - rewrite Z.max_l, Z.max_r, Z.pow_0_r, Z.mul_1_r in Hlow by lia.
      assert (2 ^ 53 = 2 ^ l * (2 * 2 ^ s)) as H53.
      { rewrite <- (Z.pow_succ_r 2 s), <- Z.pow_add_r by lia.
        f_equal. subst s. lia. }
      assert (0 < 2 ^ l) by (by apply Z.pow_pos_nonneg). nia.
    - rewrite Z.max_r, Z.max_l, Z.pow_0_r, Z.mul_1_r in Hlow by lia.
      assert (2 * 2 ^ s = 2 ^ 53 * 2 ^ (- l)) as H53.
      { rewrite <- (Z.pow_succ_r 2 s), <- Z.pow_add_r by lia.
        f_equal. subst s. lia. }
      assert (0 < 2 ^ (- l)) by (apply Z.pow_pos_nonneg; lia). nia. }
  destruct (div_mod_scaled n d (2 ^ s) Hd Hpow) as [Hq Hr].
  pose proof (Z.mod_pos_bound n d Hd) as Hrb.
  pose proof (Z.div_mod n d ltac:(lia)) as Hnd.
  pose proof (Z.div_pos n d ltac:(lia) Hd) as Hq0.
  set (q := n `div` d) in *. set (r := n `mod` d) in *.
  pose proof (Z.div_mod (r * 2 ^ s) d ltac:(lia)) as Hfg.
  pose proof (Z.mod_pos_bound (r * 2 ^ s) d Hd) as Hgb.
  set (f := (r * 2 ^ s) `div` d) in *. set (g := (r * 2 ^ s) `mod` d) in *.
  pose proof (nearest_even_bounds (n * 2 ^ s) d Hd) as Hm.
  rewrite Hq in Hm.
  assert (Hf : 0 ≤ f < 2 ^ s).
  { split; [apply Z.div_pos; nia|].
    apply Z.div_lt_upper_bound; [lia|nia]. }
  exists s, (Binary64.nearest_even (n * 2 ^ s) d).
  split; [done|]. split; [|split].
  - rewrite decide_False; [done|]. nia.
  - intros Hr0. rewrite nearest_even_exact, Hq; [|done|].
    + subst f. rewrite Hr0. simpl. rewrite Z.div_0_l by lia. lia.
    + rewrite Hr. subst g. rewrite Hr0. simpl. by rewrite Z.mod_0_l by lia.
  - intros Hr0. split.
    + destruct (decide (f = 0)) as [Hf0|Hf0]; [|lia].
      rewrite nearest_even_up, Hq; [lia|]. rewrite Hr. fold g. nia.
    + destruct (decide (f = 2 ^ s - 1)) as [Hf1|Hf1]; [|lia].
      rewrite nearest_even_down, Hq; [lia|]. rewrite Hr. fold g. nia.
Qed.

Lemma dyadic_floor (m s : Z) :
  0 ≤ s → Qfloor (Qred (m # Z.to_pos (2 ^ s))) = m `div` 2 ^ s.
Proof.
  intros Hs. rewrite (Qfloor_comp _ _ (Qred_correct _)).
  unfold Qfloor. rewrite Z2Pos.id; [done|]. by apply Z.pow_pos_nonneg.
Qed.

Lemma dyadic_ceiling (m s : Z) :
  0 ≤ s → Qceiling (Qred (m # Z.to_pos (2 ^ s))) = - ((- m) `div` 2 ^ s).
Proof.
  intros Hs. rewrite (Qceiling_comp _ _ (Qred_correct _)).
  unfold Qceiling, Qfloor, Qopp. simpl.
  rewrite Z2Pos.id; [done|]. by apply Z.pow_pos_nonneg.
Qed.

Lemma dyadic_integer (z s : Z) :
  0 ≤ s → Qred (z * 2 ^ s # Z.to_pos (2 ^ s)) = inject_Z z.
Proof.
  intros Hs.
  assert (Hpow : 0 < 2 ^ s) by (by apply Z.pow_pos_nonneg).
  transitivity (Qred (inject_Z z)).
  - apply Qred_complete. unfold Qeq, inject_Z. simpl.
    rewrite Z2Pos.id by done. lia.
  - apply Qcanon.Qred_identity. simpl. apply Z.gcd_1_r.
Qed.

(** The quotient of two integers below 2^53 in magnitude is rounded to a
    number with the same floor and ceiling. *)
Lemma round_pos_floor_ceiling (n d : Z) :
  0 < n < 2 ^ 53 → 0 < d < 2 ^ 53 →
  ∃ v, Binary64.round_pos n d = Some v
       ∧ Qfloor v = n `div` d
       ∧ Qceiling v = - ((- n) `div` d).
Proof.
  intros Hn Hd.
  destruct (round_pos_small n d Hn Hd) as (s & m & Hs & -> & Hz & Hnz).
  assert (Hpow : 0 < 2 ^ s) by (by apply Z.pow_pos_nonneg).
  eexists; split; [done|]. rewrite dyadic_floor, dyadic_ceiling by done.
  destruct (decide (n `mod` d = 0)) as [Hr|Hr].
  - rewrite (Hz Hr). rewrite <- Z.mul_opp_l, !Z.div_mul by lia.
    by rewrite (Z.div_opp_l_z n d) by (done || lia).
  - specialize (Hnz Hr). rewrite (Z.div_opp_l_nz n d) by (done || lia).
    split.
    + symmetry. apply (Z.div_unique_pos _ _ _ (m - n `div` d * 2 ^ s)); lia.
    + assert ((- m) `div` 2 ^ s = - (n `div` d + 1)) as ->; [|lia].
      symmetry.
      apply (Z.div_unique_pos _ _ _ ((n `div` d + 1) * 2 ^ s - m)); lia.
Qed.

Lemma round_pos_integer (n : Z) :
  0 < n < 2 ^ 53 → Binary64.round_pos n 1 = Some (inject_Z n).
Proof.
  intros Hn.
  destruct (round_pos_small n 1 Hn) as (s & m & Hs & -> & Hz & _); [lia|].
  rewrite Hz by apply Z.mod_1_r. rewrite Z.div_1_r.
  by rewrite dyadic_integer.
Qed.

Lemma round_integer (n : Z) :
  - 2 ^ 53 < n < 2 ^ 53 →
  Binary64.round (inject_Z n) = Binary64.Finite (inject_Z n).
Proof.
  intros Hn. unfold Binary64.round, inject_Z. simpl.
  destruct n as [|p|p]; [done| |].
  - by rewrite round_pos_integer by lia.
  - by rewrite round_pos_integer by lia.
Qed.

Lemma of_int_exact (n : Z) :
  - 2 ^ 53 < n < 2 ^ 53 → Binary64.of_int n = Return (inject_Z n).
Proof. intros Hn. unfold Binary64.of_int. by rewrite round_integer. Qed.

Lemma add_exact (x y : Z) :
  - 2 ^ 53 < x + y < 2 ^ 53 →
  Binary64.add (inject_Z x) (inject_Z y) = Binary64.Finite (inject_Z (x + y)).
Proof.
  intros H. unfold Binary64.add.
  replace (inject_Z x + inject_Z y)%Q with (inject_Z (x + y)).
  - by apply round_integer.
  - unfold Qplus, inject_Z. simpl. f_equal. lia.
Qed.

Lemma ltb_integer (x y : Z) :
  Binary64.ltb (Binary64.Finite (inject_Z x)) (Binary64.Finite (inject_Z y))
  = bool_decide (x < y).
Proof.
  unfold Binary64.ltb, Qcompare, inject_Z. simpl. rewrite !Z.mul_1_r.
  destruct (Z.compare_spec x y); case_bool_decide; (done || lia).
Qed.

Lemma round_pos_no_overflow (n : Z) :
  0 < n < 2 ^ 1023 → is_Some (Binary64.round_pos n 1).
Proof.
  intros [Hn Hn1023].
  pose proof (ilog2_range n 1) as Hl. rewrite Z.log2_1 in Hl.
  pose proof (Z.log2_spec n Hn) as [Hlog _].
  pose proof (Z.log2_nonneg n).
  unfold Binary64.round_pos. set (l := Binary64.ilog2 n 1) in *.
  set (e := Z.max (l - 52) (-1074)).
  assert (H1024 : 2 ^ 1024 = 2 * 2 ^ 1023) by done.
  destruct (decide (e ≤ 0)) as [He|He].
  - replace (Z.max e 0) with 0 by lia.
    replace (Z.max (- e) 0) with (- e) by lia.
    assert (0 < 2 ^ (- e)) by (apply Z.pow_pos_nonneg; lia).
    rewrite Z.pow_0_r, !Z.mul_1_r.
    rewrite nearest_even_exact, Z.div_1_r by (lia || apply Z.mod_1_r).
    rewrite decide_False by nia. eauto.
  - replace (Z.max e 0) with e by lia.
    replace (Z.max (- e) 0) with 0 by lia.
    assert (Hpe : 0 < 2 ^ e) by (apply Z.pow_pos_nonneg; lia).
    rewrite Z.pow_0_r, !Z.mul_1_r, Z.mul_1_l.
    pose proof (nearest_even_bounds n (2 ^ e) Hpe) as Hm.
    pose proof (Z.mul_div_le n (2 ^ e) Hpe).
    assert (2 ^ e ≤ 2 ^ Z.log2 n) by (apply Z.pow_le_mono_r; lia).
    rewrite decide_False by nia. eauto.
Qed.

Lemma round_no_overflow (n : Z) :
  - 2 ^ 1023 < n < 2 ^ 1023 →
  ∃ v, Binary64.round (inject_Z n) = Binary64.Finite v.
Proof.
  intros Hn. unfold Binary64.round, inject_Z. simpl.
  destruct n as [|p|p]; [by eexists| |];
    destruct (round_pos_no_overflow (Z.pos p)) as [v ->]; (lia || by eexists).
Qed.

Lemma of_int_total (n : Z) :
  - 2 ^ 1023 < n < 2 ^ 1023 → ∃ v, Binary64.of_int n = Return v.
Proof.
  intros Hn. unfold Binary64.of_int.
  destruct (round_no_overflow n Hn) as [v ->]. by eexists.
Qed.

Lemma of_int_outcome (n : Z) :
  (∃ v, Binary64.of_int n = Return v)
  ∨ Binary64.of_int n = Raise OverflowError.
Proof.
  unfold Binary64.of_int. destruct (Binary64.round _); eauto.
Qed.

Lemma truediv_outcome (a b : Z) :
  b ≠ 0 →
  (∃ k, Py.truediv a b = Return k) ∨ Py.truediv a b = Raise OverflowError.
Proof.
  intros Hb. unfold Py.truediv. rewrite decide_False by done.
  destruct (Binary64.round _); eauto.
Qed.

Lemma round_pos_case (n d : positive) :
  Binary64.round (Z.pos n # d)
  = match Binary64.round_pos (Z.pos n) (Z.pos d) with
    | Some v => Binary64.Finite v
    | None => Binary64.PosInf
    end.
Proof. done. Qed.

Lemma round_neg_case (n d : positive) :
  Binary64.round (Z.neg n # d)
  = match Binary64.round_pos (Z.pos n) (Z.pos d) with
    | Some v => Binary64.Finite (- v)
    | None => Binary64.NegInf
    end.
Proof. done. Qed.

Lemma truediv_ceil_exact (a b : Z) :
  b ≠ 0 → - 2 ^ 53 < a < 2 ^ 53 → - 2 ^ 53 < b < 2 ^ 53 →
  ∃ k, Py.truediv a b = Return k ∧ Py.ceil k = - ((- a) `div` b).
Proof.
  intros Hb Ha Hb53. unfold Py.truediv. rewrite decide_False by done.
  destruct a as [|pa|pa], b as [|pb|pb]; try done.
  - by eexists.
  - by eexists.
  - change (inject_Z (Z.pos pa) / inject_Z (Z.pos pb))%Q
      with (Z.pos (pa * 1) # pb).
    rewrite Pos.mul_1_r, round_pos_case.
    destruct (round_pos_floor_ceiling (Z.pos pa) (Z.pos pb))
      as (v & -> & _ & Hc); [lia..|]. by eexists.
  - change (inject_Z (Z.pos pa) / inject_Z (Z.neg pb))%Q
      with (Z.neg (pa * 1) # pb).
    rewrite Pos.mul_1_r, round_neg_case.
    destruct (round_pos_floor_ceiling (Z.pos pa) (Z.pos pb))
      as (v & -> & Hf & _); [lia..|].
    eexists; split; [done|]. unfold Py.ceil, Qceiling. rewrite Qopp_involutive, Hf.
    change (- Z.pos pa) with (Z.neg pa).
    by rewrite <- (Z.div_opp_opp (Z.neg pa) (Z.neg pb)) by done.
  - change (inject_Z (Z.neg pa) / inject_Z (Z.pos pb))%Q
      with (Z.neg (pa * 1) # pb).
    rewrite Pos.mul_1_r, round_neg_case.
    destruct (round_pos_floor_ceiling (Z.pos pa) (Z.pos pb))
      as (v & -> & Hf & _); [lia..|].
    eexists; split; [done|]. unfold Py.ceil, Qceiling. by rewrite Qopp_involutive, Hf.
  - change (inject_Z (Z.neg pa) / inject_Z (Z.neg pb))%Q
      with (Z.pos (pa * 1) # pb).
    rewrite Pos.mul_1_r, round_pos_case.
    destruct (round_pos_floor_ceiling (Z.pos pa) (Z.pos pb))
      as (v & -> & _ & Hc); [lia..|].
    eexists; split; [done|]. unfold Py.ceil. rewrite Hc.
    by rewrite <- (Z.div_opp_opp (- Z.neg pa) (Z.neg pb)) by done.
Qed.

(** ** The primitives *)

(** The ceiling of a quotient by a positive number brackets the
    dividend. *)
Lemma ceil_pos_bounds (a b : Z) :
  0 < b → let h := - ((- a) `div` b) in a ≤ b * h < a + b.
Proof.
  intros Hb h. subst h.
  pose proof (Z.mul_div_le (- a) b Hb).
  pose proof (Z.mul_succ_div_gt (- a) b Hb). lia.
Qed.

Lemma ceil_neg_bounds (a b : Z) :
  b < 0 → let h := - ((- a) `div` b) in a + b < b * h ≤ a.
Proof.
  intros Hb h. subst h.
  pose proof (Z.mul_div_ge (- a) b Hb).
  pose proof (Z.mul_succ_div_lt (- a) b Hb). lia.
Qed.

Lemma range_empty (start stop : Z) : stop ≤ start → Py.range start stop = [].
Proof.
  intros H. unfold Py.range, seqZ.
  replace (Z.to_nat (stop - start)) with 0%nat by lia. done.
Qed.

Lemma elem_of_range (x start stop : Z) :
  x ∈ Py.range start stop ↔ start ≤ x < stop.
Proof. unfold Py.range. rewrite elem_of_seqZ. lia. Qed.

Lemma getitem_lookup {A} (l : list A) (i : nat) (x : A) :
  l !! i = Some x → Py.getitem l (Z.of_nat i) = Return x.
Proof.
  intros H. unfold Py.getitem.
  repeat case_decide; try lia. by rewrite Nat2Z.id, H.
Qed.

(** ** The two loops *)

Lemma scan_coarse_step (new_dense new_coarse : Z)
    (valid_solutions : list (Z * Z)) :
  new_coarse ≠ 0 →
  scan_coarse new_dense new_coarse valid_solutions
  = Return (if decide (new_dense `mod` new_coarse = 0)
            then valid_solutions ++ [(new_dense, new_coarse)]
            else valid_solutions).
Proof.
  intros Hc. unfold scan_coarse, Py.mod_. rewrite decide_False by done.
  simpl. by case_decide.
Qed.

Lemma scan_coarse_loop (new_dense : Z) (cs : list Z)
    (valid_solutions : list (Z * Z)) :
  Forall (λ c, c ≠ 0) cs →
  Py.for_each cs (scan_coarse new_dense) valid_solutions
  = Return (valid_solutions
            ++ ((λ c, (new_dense, c))
                  <$> filter (λ c, new_dense `mod` c = 0) cs)).
Proof.
  intros Hcs. revert valid_solutions.
  induction Hcs as [|c cs Hc _ IH]; intros vs; simpl.
  - by rewrite app_nil_r.
  - rewrite scan_coarse_step by done. simpl. rewrite IH.
    case_decide as Hmod.
    + rewrite filter_cons_True by done. simpl. by rewrite <- app_assoc.
    + by rewrite filter_cons_False.
Qed.

Lemma scan_dense_step (coarse new_dense : Z) (include_identical : bool)
    (valid_solutions : list (Z * Z)) :
  1 ≤ coarse →
  scan_dense coarse 1 include_identical new_dense valid_solutions
  = Return (valid_solutions
            ++ divisor_pairs coarse include_identical new_dense).
Proof.
  intros Hc. unfold scan_dense, Py.floordiv. rewrite decide_False by lia.
  simpl. rewrite Z.div_1_r. apply scan_coarse_loop.
  apply list.Forall_forall. intros c Hin. apply elem_of_range in Hin. lia.
Qed.

Lemma scan_dense_loop (coarse : Z) (include_identical : bool) (ds : list Z)
    (valid_solutions : list (Z * Z)) :
  1 ≤ coarse →
  Py.for_each ds (scan_dense coarse 1 include_identical) valid_solutions
  = Return (valid_solutions ++ (ds ≫= divisor_pairs coarse include_identical)).
Proof.
  intros Hc. revert valid_solutions.
  induction ds as [|d ds IH]; intros vs; simpl.
  - by rewrite app_nil_r.
  - rewrite scan_dense_step by done. simpl. rewrite IH.
    by rewrite <- app_assoc.
Qed.

(** ** The candidate pool *)

(** For a positive [coarse] the list built is [pool_from], started from
    whatever [khigh] the division gave. *)
Lemma candidates_general (dense coarse : Z) (include_identical : bool) :
  1 ≤ coarse →
  candidates dense coarse include_identical
  = (k ← Py.truediv dense coarse;
     Return (pool_from (coarse * Py.ceil k) dense coarse include_identical)).
Proof.
  intros Hc. unfold candidates.
  destruct (Py.truediv dense coarse) as [k| |]; [|done..].
  cbn -[Py.ceil Py.range Z.mul]. rewrite scan_dense_loop by done.
  unfold pool_from. by destruct include_identical.
Qed.

(** Below 2^53 the quotient has the ceiling of the exact one, and the
    first candidate is the multiple of [coarse] at or above [dense]. *)
Lemma candidates_closed_form (dense coarse : Z) (include_identical : bool) :
  1 ≤ coarse < 2 ^ 53 → - 2 ^ 53 < dense < 2 ^ 53 →
  candidates dense coarse include_identical
  = Return (pool dense coarse include_identical).
Proof.
  intros Hc Hd. rewrite candidates_general by lia.
  destruct (truediv_ceil_exact dense coarse) as (k & -> & Hk); [lia..|].
  simpl. by rewrite Hk.
Qed.

(** With a negative [coarse] the loops are not entered. *)
Lemma candidates_negative (dense coarse : Z) (include_identical : bool) :
  - 2 ^ 53 < coarse < 0 → coarse < dense < 2 ^ 53 →
  candidates dense coarse include_identical
  = Return ([(ceiling_multiple dense coarse, coarse)]
            ++ (if include_identical then [(dense, dense)] else [])).
Proof.
  intros Hc Hd. unfold candidates.
  destruct (truediv_ceil_exact dense coarse) as (k & -> & Hk); [lia..|].
  cbn -[Py.ceil Py.range Z.mul Z.div Z.opp]. rewrite Hk.
  pose proof (ceil_neg_bounds dense coarse ltac:(lia)) as Hb. simpl in Hb.
  rewrite range_empty by lia. simpl. by destruct include_identical.
Qed.

Lemma candidates_zero (dense : Z) (include_identical : bool) :
  candidates dense 0 include_identical = Raise ZeroDivisionError.
Proof. done. Qed.

Lemma elem_of_pool_from (top dense coarse : Z) (include_identical : bool)
    (d c : Z) :
  (d, c) ∈ pool_from top dense coarse include_identical ↔
    (d = top ∧ c = coarse)
    ∨ (include_identical = true ∧ d = dense ∧ c = dense)
    ∨ (dense ≤ d < top
       ∧ coarse ≤ c < (if include_identical then d + 1 else d)
       ∧ d `mod` c = 0).
Proof.
  unfold pool_from.
  rewrite !elem_of_app, list_elem_of_singleton, list_elem_of_bind.
  split.
  - intros [Heq|[Hin|(nd & Hin & Hnd)]].
    + left. by simplify_eq.
    + destruct include_identical; [|by apply elem_of_nil in Hin].
      apply list_elem_of_singleton in Hin. right; left. by simplify_eq.
    + right; right. unfold divisor_pairs in Hin.
      apply list_elem_of_fmap in Hin as (nc & Heq & Hin).
      apply list_elem_of_filter in Hin as [Hmod Hin].
      apply elem_of_range in Hin, Hnd. by simplify_eq.
  - intros [[-> ->]|[(-> & -> & ->)|(Hd & Hc & Hmod)]].
    + by left.
    + right; left. by apply list_elem_of_singleton.
    + right; right. exists d. split; [|by apply elem_of_range].
      unfold divisor_pairs. apply (list_elem_of_fmap_2 (λ x, (d, x))).
      apply list_elem_of_filter. split; [done|]. by apply elem_of_range.
Qed.

Lemma elem_of_pool (dense coarse : Z) (include_identical : bool) (d c : Z) :
  (d, c) ∈ pool dense coarse include_identical ↔
    (d = ceiling_multiple dense coarse ∧ c = coarse)
    ∨ (include_identical = true ∧ d = dense ∧ c = dense)
    ∨ (dense ≤ d < ceiling_multiple dense coarse
       ∧ coarse ≤ c < (if include_identical then d + 1 else d)
       ∧ d `mod` c = 0).
Proof. apply elem_of_pool_from. Qed.

Lemma pool_head (dense coarse : Z) (include_identical : bool) :
  pool dense coarse include_identical !! 0%nat
  = Some (ceiling_multiple dense coarse, coarse).
Proof. done. Qed.

Lemma pool_from_nonempty (top dense coarse : Z) (include_identical : bool) :
  pool_from top dense coarse include_identical ≠ [].
Proof. done. Qed.


(** For [1 <= coarse < dense] every pair of the pool is admissible. *)
Lemma pool_admissible (dense coarse : Z) (include_identical : bool)
    (s : Z * Z) :
  1 ≤ coarse → coarse < dense →
  s ∈ pool dense coarse include_identical → admissible dense coarse s.
Proof.
  intros Hc Hd Hin. destruct s as [d c].
  pose proof (ceil_pos_bounds dense coarse ltac:(lia)) as Hceil.
  simpl in Hceil. fold (ceiling_multiple dense coarse) in Hceil.
  apply elem_of_pool in Hin as [[-> ->]|[(-> & -> & ->)|(Hnd & Hnc & Hmod)]];
    unfold admissible; simpl.
  - split; [|lia].
    unfold ceiling_multiple. rewrite Z.mul_comm. by apply Z_mod_mult.
  - rewrite Z_mod_same_full. lia.
  - lia.
Qed.

(** Every pair of the pool is commensurate and at or above the inputs. *)
Lemma pool_commensurate_above (dense coarse : Z) (include_identical : bool)
    (s : Z * Z) :
  1 ≤ coarse → coarse < dense →
  s ∈ pool dense coarse include_identical →
  commensurate_above dense coarse include_identical s.
Proof.
  intros Hc Hd Hin. destruct s as [d c].
  pose proof (ceil_pos_bounds dense coarse ltac:(lia)) as Hceil.
  simpl in Hceil. fold (ceiling_multiple dense coarse) in Hceil.
  apply elem_of_pool in Hin as [[-> ->]|[(-> & -> & ->)|(Hnd & Hnc & Hmod)]];
    unfold commensurate_above; simpl.
  - repeat split; try lia.
    unfold ceiling_multiple. rewrite Z.mul_comm. by apply Z_mod_mult.
  - rewrite Z_mod_same_full. repeat split; (lia || done).
  - destruct include_identical; repeat split; (lia || done).
Qed.

Lemma divisor_le (d c : Z) : 1 ≤ d → 1 ≤ c → d `mod` c = 0 → c ≤ d.
Proof.
  intros Hd Hc Hmod. destruct (decide (c ≤ d)) as [|Hlt]; [done|].
  rewrite Z.mod_small in Hmod by lia. lia.
Qed.

(** In the pool of [1 <= coarse < dense] no count exceeds the first
    candidate's dense count. *)
Lemma pool_bounded (dense coarse : Z) (include_identical : bool)
    (s : Z * Z) :
  1 ≤ coarse → coarse < dense →
  s ∈ pool dense coarse include_identical →
  1 ≤ s.1 ≤ ceiling_multiple dense coarse
  ∧ 1 ≤ s.2 ≤ ceiling_multiple dense coarse.
Proof.
  intros Hc Hd Hin.
  pose proof (pool_commensurate_above _ _ _ _ Hc Hd Hin)
    as (Hnd & Hnc & Hmod & _).
  pose proof (pool_admissible _ _ _ _ Hc Hd Hin) as (_ & Hup & _).
  pose proof (divisor_le s.1 s.2 ltac:(lia) ltac:(lia) Hmod). lia.
Qed.

(** ** Costs and selection *)

Lemma cost_outcome (s : Z * Z) :
  (∃ c, cost s = Return c) ∨ cost s = Raise OverflowError.
Proof.
  unfold cost.
  destruct (of_int_outcome s.1) as [[x ->]| ->]; [|by right].
  destruct (of_int_outcome s.2) as [[y ->]| ->]; [|by right].
  left. by eexists.
Qed.

Lemma cost_total (s : Z * Z) :
  - 2 ^ 1023 < s.1 < 2 ^ 1023 → - 2 ^ 1023 < s.2 < 2 ^ 1023 →
  ∃ c, cost s = Return c.
Proof.
  intros H1 H2. unfold cost.
  destruct (of_int_total s.1 H1) as [x ->].
  destruct (of_int_total s.2 H2) as [y ->]. by eexists.
Qed.

(** Below 2^53 the cost of a pair is its sum, computed exactly. *)
Lemma cost_exact (s : Z * Z) :
  0 ≤ s.1 → 0 ≤ s.2 → total s < 2 ^ 53 →
  cost s = Return (Binary64.Finite (inject_Z (total s))).
Proof.
  unfold total. intros H1 H2 Hsum. unfold cost.
  rewrite !of_int_exact by lia. simpl. by rewrite add_exact by lia.
Qed.

Lemma comprehension_outcome (vs : list (Z * Z)) :
  (∃ costs, Py.comprehension cost vs = Return costs
            ∧ length costs = length vs)
  ∨ Py.comprehension cost vs = Raise OverflowError.
Proof.
  induction vs as [|s vs IH]; simpl.
  - left. by exists [].
  - destruct (cost_outcome s) as [[c ->]| ->]; [|by right]. simpl.
    destruct IH as [(costs & -> & Hlen)| ->]; [|by right].
    left. exists (c :: costs). simpl. by rewrite Hlen.
Qed.

Lemma comprehension_total (vs : list (Z * Z)) :
  Forall (λ s, - 2 ^ 1023 < s.1 < 2 ^ 1023 ∧ - 2 ^ 1023 < s.2 < 2 ^ 1023) vs →
  ∃ costs, Py.comprehension cost vs = Return costs
           ∧ length costs = length vs.
Proof.
  induction 1 as [|s vs [H1 H2] _ (costs & IH & Hlen)]; simpl.
  - by exists [].
  - destruct (cost_total s H1 H2) as [c ->]. rewrite IH. simpl.
    exists (c :: costs). simpl. by rewrite Hlen.
Qed.

Lemma comprehension_exact (vs : list (Z * Z)) :
  Forall (λ s, 0 ≤ s.1 ∧ 0 ≤ s.2 ∧ total s < 2 ^ 53) vs →
  Py.comprehension cost vs
  = Return ((λ s, Binary64.Finite (inject_Z (total s))) <$> vs).
Proof.
  induction 1 as [|s vs (H1 & H2 & H3) _ IH]; simpl; [done|].
  rewrite cost_exact by done. simpl. by rewrite IH.
Qed.

Lemma argmin_from_lt (rest : list Binary64.t) (i best : nat)
    (least : Binary64.t) :
  (best < i)%nat → (Np.argmin_from rest i best least < i + length rest)%nat.
Proof.
  revert i best least. induction rest as [|c rest IH]; intros i best least Hb.
  - simpl. lia.
  - simpl. destruct (Binary64.ltb c least).
    + specialize (IH (S i) i c ltac:(lia)). lia.
    + specialize (IH (S i) best least ltac:(lia)). lia.
Qed.

Lemma argmin_lt (costs : list Binary64.t) :
  costs ≠ [] →
  ∃ idx, Np.argmin costs = Return idx ∧ (idx < length costs)%nat.
Proof.
  destruct costs as [|c rest]; [done|]. intros _. simpl.
  eexists; split; [done|].
  pose proof (argmin_from_lt rest 1 0 c ltac:(lia)). lia.
Qed.

(** On integers the index found is that of the first least one. *)
Lemma argmin_from_spec (rest pre : list Z) (best : nat) (least : Z) :
  first_minimum pre best least →
  ∃ m, first_minimum (pre ++ rest)
         (Np.argmin_from ((λ z, Binary64.Finite (inject_Z z)) <$> rest)
            (length pre) best (Binary64.Finite (inject_Z least))) m.
Proof.
  revert pre best least.
  induction rest as [|c rest IH]; intros pre best least [Hbest Hmin].
  - simpl. rewrite app_nil_r. by exists least.
  - assert (Hlen : length (pre ++ [c]) = S (length pre))
      by (rewrite length_app; simpl; lia).
    pose proof (lookup_lt_Some _ _ _ Hbest) as Hlt.
    rewrite fmap_cons. cbn [Np.argmin_from].
    rewrite (cons_middle c pre rest), app_assoc, <- Hlen.
    rewrite ltb_integer.
    case_bool_decide as Hc; apply IH; split.
    + by rewrite lookup_app_r, Nat.sub_diag.
    + intros j c' Hj.
      destruct (decide (j < length pre)%nat) as [Hjl|Hjl].
      * rewrite lookup_app_l in Hj by done.
        destruct (Hmin j c' Hj). lia.
      * pose proof (lookup_lt_Some _ _ _ Hj). rewrite Hlen in *.
        replace j with (length pre) in * by lia.
        rewrite lookup_app_r, Nat.sub_diag in Hj by done.
        simplify_eq/=. lia.
    + by rewrite lookup_app_l.
    + intros j c' Hj.
      destruct (decide (j < length pre)%nat) as [Hjl|Hjl].
      * rewrite lookup_app_l in Hj by done. by apply Hmin.
      * pose proof (lookup_lt_Some _ _ _ Hj). rewrite Hlen in *.
        replace j with (length pre) in * by lia.
        rewrite lookup_app_r, Nat.sub_diag in Hj by done.
        simplify_eq/=. lia.
Qed.

Lemma argmin_spec (sums : list Z) :
  sums ≠ [] →
  ∃ idx m,
    Np.argmin ((λ z, Binary64.Finite (inject_Z z)) <$> sums) = Return idx
    ∧ first_minimum sums idx m.
Proof.
  destruct sums as [|c rest]; [done|]. intros _. simpl.
  destruct (argmin_from_spec rest [c] 0 c) as (m & Hm).
  - split; [done|]. intros [|j] c' Hj; simplify_eq/=; lia.
  - eauto.
Qed.

Lemma cheapest_elem_of (valid_solutions : list (Z * Z)) (s : Z * Z) :
  cheapest valid_solutions s → s ∈ valid_solutions.
Proof. intros (idx & Hidx & _). by eapply list_elem_of_lookup_2. Qed.

Lemma cheapest_least (valid_solutions : list (Z * Z)) (s t : Z * Z) :
  cheapest valid_solutions s → t ∈ valid_solutions → total s ≤ total t.
Proof.
  intros (idx & _ & Hmin) Hin.
  apply list_elem_of_lookup_1 in Hin as [j Hj]. by apply (Hmin j t).
Qed.

(** Whatever the costs are, the pair selected is one of the list. *)
Lemma select_outcome (valid_solutions : list (Z * Z)) :
  valid_solutions ≠ [] →
  (∃ s, select valid_solutions = Return s ∧ s ∈ valid_solutions)
  ∨ select valid_solutions = Raise OverflowError.
Proof.
  intros Hne. unfold select.
  destruct (comprehension_outcome valid_solutions)
    as [(costs & -> & Hlen)| ->]; [|by right].
  left. simpl.
  destruct (argmin_lt costs) as (idx & -> & Hidx).
  { intros ->. by destruct valid_solutions. }
  simpl. rewrite Hlen in Hidx.
  destruct (lookup_lt_is_Some_2 valid_solutions idx Hidx) as [s Hs].
  exists s. split; [by apply getitem_lookup|].
  by eapply list_elem_of_lookup_2.
Qed.

Lemma select_member (valid_solutions : list (Z * Z)) :
  valid_solutions ≠ [] →
  Forall (λ s, - 2 ^ 1023 < s.1 < 2 ^ 1023 ∧ - 2 ^ 1023 < s.2 < 2 ^ 1023)
    valid_solutions →
  ∃ s, select valid_solutions = Return s ∧ s ∈ valid_solutions.
Proof.
  intros Hne Hall.
  destruct (select_outcome valid_solutions Hne) as [H|H]; [done|].
  unfold select in H.
  destruct (comprehension_total valid_solutions Hall) as (costs & Hc & Hlen).
  rewrite Hc in H. simpl in H.
  destruct (argmin_lt costs) as (idx & Hidx & Hlt).
  { intros ->. by destruct valid_solutions. }
  rewrite Hidx in H. simpl in H. rewrite Hlen in Hlt.
  destruct (lookup_lt_is_Some_2 valid_solutions idx Hlt) as [s Hs].
  by rewrite (getitem_lookup _ _ _ Hs) in H.
Qed.

(** When all sums are below 2^53 it is the first pair of least sum. *)
Lemma select_spec (valid_solutions : list (Z * Z)) :
  valid_solutions ≠ [] →
  Forall (λ s, 0 ≤ s.1 ∧ 0 ≤ s.2 ∧ total s < 2 ^ 53) valid_solutions →
  ∃ s, select valid_solutions = Return s ∧ cheapest valid_solutions s.
Proof.
  intros Hne Hall. unfold select.
  rewrite comprehension_exact by done. simpl.
  assert (((λ s, Binary64.Finite (inject_Z (total s))) <$> valid_solutions)
          = (λ z, Binary64.Finite (inject_Z z)) <$> (total <$> valid_solutions))
    as -> by exact (list_fmap_compose total
                      (λ z, Binary64.Finite (inject_Z z)) valid_solutions).
  destruct (argmin_spec (total <$> valid_solutions))
    as (idx & m & -> & Hidx & Hmin).
  { by destruct valid_solutions. }
  simpl. rewrite list_lookup_fmap in Hidx.
  destruct (valid_solutions !! idx) as [s|] eqn:Hs; simplify_eq/=.
  exists s. split; [by apply getitem_lookup|].
  exists idx. split; [done|]. intros j t Hj.
  apply (Hmin j (total t)). by rewrite list_lookup_fmap, Hj.
Qed.

Lemma select_no_fuel (valid_solutions : list (Z * Z)) :
  select valid_solutions ≠ OutOfFuel.
Proof.
  destruct valid_solutions as [|s vs]; [done|].
  destruct (select_outcome (s :: vs)) as [(t & -> & _)| ->]; done.
Qed.

(** ** The three ways through [find_commensurate_integers] *)

Lemma solver_identical (n : nat) (dense coarse : Z) :
  dense ≤ coarse →
  find_commensurate_integers (S n) dense coarse true
    = Return (coarse, coarse).
Proof. intros H. simpl. by rewrite decide_True. Qed.

Lemma solver_recursive (n : nat) (dense coarse : Z) :
  dense ≤ coarse →
  find_commensurate_integers (S n) dense coarse false
    = find_commensurate_integers n (coarse + 1) coarse false.
Proof. intros H. simpl. by rewrite decide_True. Qed.

Lemma solver_search (n : nat) (dense coarse : Z) (include_identical : bool) :
  coarse < dense →
  find_commensurate_integers (S n) dense coarse include_identical
    = candidates dense coarse include_identical ≫= select.
Proof. intros H. simpl. rewrite decide_False by lia. done. Qed.

(** The search never runs out of fuel: it makes no recursive call. *)
Lemma solver_search_no_fuel (n : nat) (dense coarse : Z)
    (include_identical : bool) :
  1 ≤ coarse → coarse < dense →
  find_commensurate_integers (S n) dense coarse include_identical
    ≠ OutOfFuel.
Proof.
  intros Hc Hd. rewrite solver_search, candidates_general by lia.
  destruct (truediv_outcome dense coarse) as [[k ->]| ->]; [lia| |done].
  simpl. apply select_no_fuel.
Qed.


(** Below 2^53 the search returns a pair of the pool. *)
Lemma solver_search_member (n : nat) (dense coarse : Z)
    (include_identical : bool) :
  1 ≤ coarse → coarse < dense → dense < 2 ^ 53 →
  ∃ s, find_commensurate_integers (S n) dense coarse include_identical
         = Return s
       ∧ s ∈ pool dense coarse include_identical.
Proof.
  intros Hc Hd H53.
  rewrite solver_search, candidates_closed_form by lia. simpl.
  apply select_member; [apply pool_from_nonempty|].
  apply list.Forall_forall. intros s Hin.
  pose proof (pool_bounded _ _ _ _ Hc Hd Hin) as [H1 H2].
  pose proof (ceil_pos_bounds dense coarse ltac:(lia)) as Hceil.
  simpl in Hceil. fold (ceiling_multiple dense coarse) in Hceil.
  assert (2 ^ 53 * 2 < 2 ^ 1023) by done. lia.
Qed.

(** When, moreover, the first candidate is below 2^52, all sums are exact
    and the pair returned is the first of least sum. *)
Lemma solver_search_pool (n : nat) (dense coarse : Z)
    (include_identical : bool) :
  1 ≤ coarse → coarse < dense →
  ceiling_multiple dense coarse < 2 ^ 52 →
  ∃ s, find_commensurate_integers (S n) dense coarse include_identical
         = Return s
       ∧ cheapest (pool dense coarse include_identical) s.
Proof.
  intros Hc Hd Htop.
  pose proof (ceil_pos_bounds dense coarse ltac:(lia)) as Hceil.
  simpl in Hceil. fold (ceiling_multiple dense coarse) in Hceil.
  assert (2 ^ 53 = 2 * 2 ^ 52) as H53 by done.
  rewrite solver_search, candidates_closed_form by lia. simpl.
  apply select_spec; [apply pool_from_nonempty|].
  apply list.Forall_forall. intros s Hin.
  pose proof (pool_bounded _ _ _ _ Hc Hd Hin) as [H1 H2].
  unfold total. lia.
Qed.

Lemma solver_search_zero (n : nat) (dense : Z) (include_identical : bool) :
  0 < dense →
  find_commensurate_integers (S n) dense 0 include_identical
    = Raise ZeroDivisionError.
Proof. intros H. by rewrite solver_search, candidates_zero. Qed.

(** On positive counts below 2^53, also after the recursive call has
    added one to [coarse], two activations are enough and the pair returned
    is commensurate and not below the inputs. *)
Lemma solver_sound (fuel : nat) (dense coarse : Z)
    (include_identical : bool) :
  1 ≤ dense < 2 ^ 53 → 1 ≤ coarse < 2 ^ 53 - 1 → (2 ≤ fuel)%nat →
  ∃ s, find_commensurate_integers fuel dense coarse include_identical
         = Return s
       ∧ commensurate_above dense coarse include_identical s.
Proof.
  intros Hd Hc Hfuel.
  destruct fuel as [|[|n]]; [lia..|].
  destruct (decide (dense ≤ coarse)) as [Hle|Hgt].
  - destruct include_identical.
    + rewrite solver_identical by done. eexists; split; [done|].
      unfold commensurate_above; simpl. rewrite Z_mod_same_full.
      repeat split; (lia || done).
    + rewrite solver_recursive by done.
      destruct (solver_search_member n (coarse + 1) coarse false)
        as (s & -> & Hin); [lia..|].
      exists s. split; [done|].
      apply pool_commensurate_above in Hin as (? & ? & ? & ?); [|lia..].
      repeat split; (lia || done).
  - destruct (solver_search_member (S n) dense coarse include_identical)
      as (s & -> & Hin); [lia..|].
    exists s. split; [done|]. apply pool_commensurate_above; (lia || done).
Qed.

(** More fuel than two activations changes nothing. *)
Lemma solver_fuel (fuel : nat) (dense coarse : Z) (include_identical : bool) :
  (2 ≤ fuel)%nat →
  find_commensurate_integers fuel dense coarse include_identical
  = find_commensurate_integers 2 dense coarse include_identical.
Proof.
  intros Hfuel. destruct fuel as [|[|n]]; [lia..|].
  destruct (decide (dense ≤ coarse)) as [Hle|Hgt].
  - destruct include_identical.
    + by rewrite !solver_identical.
    + rewrite (solver_recursive (S n)), (solver_recursive 1) by done.
      by rewrite (solver_search n), (solver_search 0) by lia.
  - by rewrite (solver_search (S n)), (solver_search 1) by lia.
Qed.


(** * The stated properties of the solver *)




(** C2.  For all [1 <= dense <= coarse], the call with
    [include_identical = True] returns exactly [(coarse, coarse)]. *)
Theorem identical_when_dense_not_larger (fuel : nat) (dense coarse : Z) :
  1 ≤ dense → dense ≤ coarse → (1 ≤ fuel)%nat →
  find_commensurate_integers fuel dense coarse true = Return (coarse, coarse).
Proof.
  intros _ Hle Hfuel. destruct fuel as [|n]; [lia|].
  by apply solver_identical.
Qed.

Lemma identical_when_dense_not_larger_witness :
  1 ≤ 3 ∧ 3 ≤ 5 ∧ (1 ≤ 1)%nat ∧
  find_commensurate_integers 1 3 5 true = Return (5, 5).
Proof.
  split; [lia|]. split; [lia|]. split; [lia|].
  apply (identical_when_dense_not_larger 1 3 5); lia.
Defined.




(** C9.  For all [dense >= 1] and [coarse >= 1], the call with
    [include_identical = False] terminates.  When [dense <= coarse] it makes
    one recursive call, on [(coarse + 1, coarse)]: the first argument has
    grown strictly and is now above the second, and that call ends without
    a further activation.  When [dense > coarse] there is no recursive call
    at all.  Hence two activations always suffice: the call ends, with a
    pair or with an exception, and with a pair when [dense < 2^53] and
    [coarse < 2^53 - 1]. *)
Theorem solver_terminates (dense coarse : Z) :
  1 ≤ dense → 1 ≤ coarse →
  (dense ≤ coarse →
     dense < coarse + 1 ∧ coarse < coarse + 1
     ∧ (∀ n, find_commensurate_integers (S n) dense coarse false
             = find_commensurate_integers n (coarse + 1) coarse false)
     ∧ find_commensurate_integers 1 (coarse + 1) coarse false ≠ OutOfFuel)
  ∧ (dense > coarse →
     find_commensurate_integers 1 dense coarse false ≠ OutOfFuel)
  ∧ (∃ r, r ≠ OutOfFuel
          ∧ ∀ fuel, (2 ≤ fuel)%nat →
              find_commensurate_integers fuel dense coarse false = r)
  ∧ (dense < 2 ^ 53 → coarse < 2 ^ 53 - 1 →
     ∃ s, ∀ fuel, (2 ≤ fuel)%nat →
       find_commensurate_integers fuel dense coarse false = Return s).
Proof.
  intros Hd Hc. split; [|split; [|split]].
  - intros Hle. split; [lia|]. split; [lia|]. split.
    + intros n. by apply solver_recursive.
    + apply solver_search_no_fuel; lia.
  - intros Hgt. apply solver_search_no_fuel; lia.
  - exists (find_commensurate_integers 2 dense coarse false). split.
    + destruct (decide (dense ≤ coarse)) as [Hle|Hgt].
      * rewrite solver_recursive by done. apply solver_search_no_fuel; lia.
      * apply solver_search_no_fuel; lia.
    + intros fuel Hfuel. by apply solver_fuel.
  - intros Hd53 Hc53.
    destruct (solver_sound 2 dense coarse false) as (s & Hrun & _); [lia..|].
    exists s. intros fuel Hfuel. by rewrite solver_fuel.
Qed.

Lemma solver_terminates_witness :
  1 ≤ 3 ∧ 1 ≤ 5 ∧ 3 ≤ 5 ∧ 3 < 2 ^ 53 ∧ 5 < 2 ^ 53 - 1
  ∧ (3 < 5 + 1 ∧ 5 < 5 + 1
     ∧ (∀ n, find_commensurate_integers (S n) 3 5 false
             = find_commensurate_integers n (5 + 1) 5 false)
     ∧ find_commensurate_integers 1 (5 + 1) 5 false ≠ OutOfFuel)
  ∧ ∃ s, ∀ fuel, (2 ≤ fuel)%nat →
      find_commensurate_integers fuel 3 5 false = Return s.
Proof.
  destruct (solver_terminates 3 5) as (Hrec & _ & _ & Hall); [lia..|].
  split; [lia|]. split; [lia|]. split; [lia|]. split; [lia|]. split; [lia|].
  split; [apply Hrec; lia|apply Hall; lia].
Defined.




(** C6.  [find_commensurate_integers(5, 2)], with
    [include_identical = True], returns exactly [(6, 2)].  The candidates
    are [(6, 2)], [(5, 5)] and [(5, 5)] again; their costs are [8], [10]
    and [10], the cost of a pair [(d, c)] being [d + c] (exactly so while
    the sum stays below 2^53); and [(6, 2)] is the first candidate of least
    cost. *)
Theorem solve_5_2 :
  (∀ n, find_commensurate_integers (S n) 5 2 true = Return (6, 2))
  ∧ candidates 5 2 true = Return [(6, 2); (5, 5); (5, 5)]
  ∧ Py.comprehension cost [(6, 2); (5, 5); (5, 5)]
    = Return [Binary64.Finite (inject_Z 8); Binary64.Finite (inject_Z 10);
              Binary64.Finite (inject_Z 10)]
  ∧ (∀ d c, 0 ≤ d → 0 ≤ c → d + c < 2 ^ 53 →
       cost (d, c) = Return (Binary64.Finite (inject_Z (d + c))))
  ∧ cheapest [(6, 2); (5, 5); (5, 5)] (6, 2).
Proof.
  split; [|split; [|split; [|split]]].
  - intros n. rewrite solver_search by lia. vm_compute. reflexivity.
  - vm_compute. reflexivity.
  - vm_compute. reflexivity.
  - intros d c Hd Hc Hsum. by apply (cost_exact (d, c)).
  - exists 0%nat. split; [done|].
    intros [|[|[|j]]] t Ht; simplify_eq/=; vm_compute; split; (done || lia).
Qed.

(** ** Inputs below one *)

(** With a negative [coarse] below [dense] the search returns one of its
    one or two candidates. *)
Lemma solver_search_negative (n : nat) (dense coarse : Z)
    (include_identical : bool) :
  - 2 ^ 53 < coarse < 0 → coarse < dense < 2 ^ 53 →
  ∃ s, find_commensurate_integers (S n) dense coarse include_identical
         = Return s.
Proof.
  intros Hc Hd.
  rewrite solver_search, candidates_negative by lia. simpl.
  pose proof (ceil_neg_bounds dense coarse ltac:(lia)) as Hb. simpl in Hb.
  fold (ceiling_multiple dense coarse) in Hb.
  assert (2 ^ 53 * 2 < 2 ^ 1023) by done.
  destruct (select_member
              ([(ceiling_multiple dense coarse, coarse)]
               ++ (if include_identical then [(dense, dense)] else [])))
    as (s & Hs & _); [done| |by eauto].
  destruct include_identical; repeat constructor; simpl; lia.
Qed.

(** C7, as the code has it.  [find_commensurate_integers] does not check
    its arguments.  On an input with a count below one, both counts being
    between [-2^53] and [2^53 - 1] (excluded), it raises no error of its
    own: the [ZeroDivisionError] of [dense / coarse] comes out when
    [coarse] is zero and the division is reached ([dense > 0], or
    [include_identical = False]); in every other case a pair is returned,
    and it is [(coarse, coarse)] whenever [dense <= coarse] and
    [include_identical] holds. *)
Theorem no_input_validation (fuel : nat) (dense coarse : Z)
    (include_identical : bool) :
  dense < 1 ∨ coarse < 1 →
  - 2 ^ 53 < dense < 2 ^ 53 → - 2 ^ 53 < coarse < 2 ^ 53 - 1 →
  (2 ≤ fuel)%nat →
  let result :=
    find_commensurate_integers fuel dense coarse include_identical in
  (coarse = 0 ∧ (0 < dense ∨ include_identical = false)
   ∧ result = Raise ZeroDivisionError)
  ∨ (¬ (coarse = 0 ∧ (0 < dense ∨ include_identical = false))
     ∧ ∃ s, result = Return s
            ∧ (dense ≤ coarse → include_identical = true →
               s = (coarse, coarse))).
Proof.
  intros Hlow Hd Hc Hfuel result. subst result.
  destruct fuel as [|[|n]]; [lia..|].
  destruct (decide (dense ≤ coarse)) as [Hle|Hgt].
  - destruct include_identical.
    + right. split; [intros (_ & [?|?]); (lia || done)|].
      rewrite solver_identical by done. eauto.
    + rewrite solver_recursive by done.
      destruct (decide (coarse = 0)) as [->|Hnz].
      { left. split; [done|]. split; [by right|].
        by apply solver_search_zero. }
      right. split; [by intros [? _]|].
      destruct (decide (0 < coarse)) as [Hpos|Hneg].
      * destruct (solver_search_member n (coarse + 1) coarse false)
          as (s & -> & _); [lia..|]. exists s. by split.
      * destruct (solver_search_negative n (coarse + 1) coarse false)
          as (s & ->); [lia..|]. exists s. by split.
  - destruct (decide (coarse = 0)) as [->|Hnz].
    { left. split; [done|]. split; [left; lia|].
      apply solver_search_zero. lia. }
    right. split; [by intros [? _]|].
    destruct (solver_search_negative (S n) dense coarse include_identical)
      as (s & ->); [lia..|].
    exists s. split; [done|]. lia.
Qed.

Lemma no_input_validation_witness :
  ((0 < 1 ∨ 0 < 1) ∧ - 2 ^ 53 < 0 < 2 ^ 53 ∧ - 2 ^ 53 < 0 < 2 ^ 53 - 1
   ∧ (2 ≤ 2)%nat
   ∧ ∃ s, find_commensurate_integers 2 0 0 true = Return s
          ∧ (0 ≤ 0 → true = true → s = (0, 0)))
  ∧ ((1 < 1 ∨ 0 < 1) ∧ - 2 ^ 53 < 1 < 2 ^ 53 ∧ - 2 ^ 53 < 0 < 2 ^ 53 - 1
     ∧ find_commensurate_integers 2 1 0 true = Raise ZeroDivisionError)
  ∧ ((3 < 1 ∨ -2 < 1) ∧ - 2 ^ 53 < 3 < 2 ^ 53
     ∧ - 2 ^ 53 < -2 < 2 ^ 53 - 1
     ∧ ∃ s, find_commensurate_integers 2 3 (-2) true = Return s).
Proof.
  split; [|split].
  - split; [left; lia|]. split; [lia|]. split; [lia|]. split; [lia|].
    destruct (no_input_validation 2 0 0 true)
      as [(_ & [H|H] & _)|(_ & H)]; [left; lia|lia|lia|lia|lia|discriminate H|].
    exact H.
  - split; [right; lia|]. split; [lia|]. split; [lia|].
    destruct (no_input_validation 2 1 0 true)
      as [(_ & _ & H)|(H & _)]; [right; lia|lia|lia|lia| |].
    + exact H.
    + exfalso. apply H. split; [reflexivity|left; lia].
  - split; [right; lia|]. split; [lia|]. split; [lia|].
    destruct (no_input_validation 2 3 (-2) true)
      as [(H & _)|(_ & s & H & _)]; [right; lia|lia|lia|lia| |].
    + discriminate H.
    + exists s. exact H.
Defined.

(** C7, as stated, fails: on [dense = 0], [coarse = 0] the call returns
    [(0, 0)] and raises nothing. *)
Lemma invalid_input_accepted :
  0 < 1
  ∧ find_commensurate_integers 2 0 0 true = Return (0, 0)
  ∧ ¬ ∃ e, find_commensurate_integers 2 0 0 true = Raise e.
Proof. split; [lia|]. split; [done|]. by intros [e He]. Qed.

(** ** The axis-wise driver *)

(** C8.  [find_commensurate_meshes] calls the solver once per axis, on
    [(dense[i], coarse[i])] with the default [include_identical = True], and
    assembles the two new meshes from the three results; on dense
    [(2, 2, 2)] and coarse [(4, 4, 4)] both new meshes are [(4, 4, 4)]. *)
Theorem meshes_axis_wise :
  (∀ fuel d0 d1 d2 c0 c1 c2,
     find_commensurate_meshes fuel [d0; d1; d2] [c0; c1; c2]
     = ('(nd0, nc0) ← find_commensurate_integers fuel d0 c0 true;
        '(nd1, nc1) ← find_commensurate_integers fuel d1 c1 true;
        '(nd2, nc2) ← find_commensurate_integers fuel d2 c2 true;
        Return {| dense_mesh := [nd0; nd1; nd2];
                  coarse_mesh := [nc0; nc1; nc2] |}))
  ∧ (∀ n, find_commensurate_meshes (S n) [2; 2; 2] [4; 4; 4]
          = Return {| dense_mesh := [4; 4; 4]; coarse_mesh := [4; 4; 4] |}).
Proof.
  split.
  - intros fuel d0 d1 d2 c0 c1 c2. unfold find_commensurate_meshes.
    cbv -[find_commensurate_integers].
    destruct (find_commensurate_integers fuel d0 c0 true) as [[nd0 nc0]| |];
      [|done..].
    destruct (find_commensurate_integers fuel d1 c1 true) as [[nd1 nc1]| |];
      [|done..].
    by destruct (find_commensurate_integers fuel d2 c2 true) as [[nd2 nc2]| |].
  - intros n. unfold find_commensurate_meshes.
    cbv -[find_commensurate_integers].
    by rewrite !solver_identical by lia.
Qed.

(** * The stated properties of the mapper *)

(** The rounded difference between the origin and [(0.5, 0, 0)] is [-0.5]
    in its first component, which is not in [opt]. *)
Lemma half_not_matched :
  Np.around (Float64.sub zero half) 5 = Float64.of_dyadic (-1) (-1)
  ∧ Np.contains opt (Np.around (Float64.sub zero half) 5) = false.
Proof. split; vm_compute; reflexivity. Qed.

(** C4, as the code has it.  For the coarse points [[(0,0,0)]] and the
    dense points [[(0,0,0), (1,0,0), (0.5,0,0)]], [kmapper] returns exactly
    two entries, [(1, 1, start_band, end_band)] and
    [(2, 2, start_band, end_band)]: the dense points at positions 1 and 2
    match (differences [0] and [-1]), the third one does not. *)
Theorem kmapper_three_points (start_band end_band : Z) :
  kmapper dense_three coarse_origin start_band end_band
  = [(1, 1, start_band, end_band); (2, 2, start_band, end_band)].
Proof. vm_compute. reflexivity. Qed.

(** C4, as stated, fails: the result has a second entry, for position 2. *)
Lemma kmapper_three_points_not_single :
  kmapper dense_three coarse_origin 1 4 = [(1, 1, 1, 4); (2, 2, 1, 4)]
  ∧ kmapper dense_three coarse_origin 1 4 ≠ [(1, 1, 1, 4)].
Proof. split; [vm_compute; reflexivity|]. vm_compute. discriminate. Qed.

(** C5.  For the coarse points [[(0,0,0)]] and the dense points
    [[(0,0,0), (1,0,0)]], [kmapper] returns exactly two entries, for the
    dense positions 1 and 2 in that order: the scan goes on after the first
    match. *)
Theorem kmapper_periodic_images (start_band end_band : Z) :
  kmapper dense_two coarse_origin start_band end_band
  = [(1, 1, start_band, end_band); (2, 2, start_band, end_band)].
Proof. vm_compute. reflexivity. Qed.

(** * Further properties of the solver *)

(** Every commensurate pair at or above the inputs has a sum at least that
    of some pair of the pool. *)
Lemma pool_covers (dense coarse : Z) (include_identical : bool)
    (t : Z * Z) :
  1 ≤ coarse → coarse < dense →
  commensurate_above dense coarse include_identical t →
  ∃ u, u ∈ pool dense coarse include_identical ∧ total u ≤ total t.
Proof.
  intros Hc Hd. destruct t as [d c]. unfold commensurate_above; simpl.
  intros (Hnd & Hnc & Hmod & Hstrict).
  destruct (decide (d < ceiling_multiple dense coarse)) as [Hlt|Hge].
  - exists (d, c). split; [|done]. apply elem_of_pool. right; right.
    pose proof (divisor_le d c ltac:(lia) ltac:(lia) Hmod).
    destruct include_identical; [lia|].
    specialize (Hstrict eq_refl). lia.
  - exists (ceiling_multiple dense coarse, coarse).
    split; [apply elem_of_pool; by left|]. unfold total. simpl. lia.
Qed.

(** On counts from 1 to below 2^51 the pair returned is commensurate, at
    or above the inputs, and no such pair has a smaller sum. *)
Lemma solver_optimal (fuel : nat) (dense coarse : Z)
    (include_identical : bool) :
  1 ≤ dense < 2 ^ 51 → 1 ≤ coarse < 2 ^ 51 → (2 ≤ fuel)%nat →
  ∃ s, find_commensurate_integers fuel dense coarse include_identical
         = Return s
       ∧ commensurate_above dense coarse include_identical s
       ∧ s.1 < 2 ^ 52
       ∧ ∀ t, commensurate_above dense coarse include_identical t →
              total s ≤ total t.
Proof.
  intros Hd Hc Hfuel. destruct fuel as [|[|n]]; [lia..|].
  assert (2 ^ 52 = 2 * 2 ^ 51) as H52 by done.
  destruct (decide (dense ≤ coarse)) as [Hle|Hgt].
  - destruct include_identical.
    + rewrite solver_identical by done. eexists; split; [done|]. split.
      * unfold commensurate_above; simpl. rewrite Z_mod_same_full.
        repeat split; (lia || done).
      * split; [simpl; lia|].
        intros [d c] (Hnd & Hnc & Hmod & _); simpl in *.
        pose proof (divisor_le d c ltac:(lia) ltac:(lia) Hmod).
        unfold total. simpl. lia.
    + rewrite solver_recursive by done.
      pose proof (ceil_pos_bounds (coarse + 1) coarse ltac:(lia)) as Hceil.
      simpl in Hceil. fold (ceiling_multiple (coarse + 1) coarse) in Hceil.
      destruct (solver_search_pool n (coarse + 1) coarse false)
        as (s & -> & Hcheap); [lia..|].
      exists s. split; [done|].
      pose proof (cheapest_elem_of _ _ Hcheap) as Hin.
      pose proof (pool_bounded (coarse + 1) coarse false s
                    ltac:(lia) ltac:(lia) Hin) as [Hb _].
      apply pool_commensurate_above in Hin as (? & ? & ? & ?); [|lia..].
      split; [repeat split; (lia || done)|]. split; [lia|].
      intros t (Hnd & Hnc & Hmod & Hstrict).
      destruct (pool_covers (coarse + 1) coarse false t)
        as (u & Hu & Hle'); [lia..| |].
      { specialize (Hstrict eq_refl). repeat split; (lia || done). }
      pose proof (cheapest_least _ _ _ Hcheap Hu). lia.
  - pose proof (ceil_pos_bounds dense coarse ltac:(lia)) as Hceil.
    simpl in Hceil. fold (ceiling_multiple dense coarse) in Hceil.
    destruct (solver_search_pool (S n) dense coarse include_identical)
      as (s & -> & Hcheap); [lia..|].
    exists s. split; [done|].
    pose proof (cheapest_elem_of _ _ Hcheap) as Hin.
    pose proof (pool_bounded dense coarse include_identical s
                  ltac:(lia) ltac:(lia) Hin) as [Hb _].
    split; [apply pool_commensurate_above; (lia || done)|]. split; [lia|].
    intros t Ht.
    destruct (pool_covers dense coarse include_identical t)
      as (u & Hu & Hle'); [lia..|done|].
    pose proof (cheapest_least _ _ _ Hcheap Hu). lia.
Qed.

Lemma ceiling_multiple_exact (dense coarse : Z) :
  coarse ≠ 0 → dense `mod` coarse = 0 → ceiling_multiple dense coarse = dense.
Proof.
  intros Hc Hmod. unfold ceiling_multiple.
  rewrite Z.div_opp_l_z, Z.opp_involutive by done.
  symmetry. by apply Z.div_exact.
Qed.

(** A pair below 2^52 that is commensurate already comes back as it is. *)
Lemma solver_fixed (fuel : nat) (dense coarse : Z)
    (include_identical : bool) :
  1 ≤ coarse → coarse ≤ dense → dense < 2 ^ 52 → dense `mod` coarse = 0 →
  (include_identical = false → coarse < dense) → (1 ≤ fuel)%nat →
  find_commensurate_integers fuel dense coarse include_identical
  = Return (dense, coarse).
Proof.
  intros Hc Hle H52 Hmod Hstrict Hfuel. destruct fuel as [|n]; [lia|].
  destruct (decide (dense = coarse)) as [->|Hne].
  { destruct include_identical; [by apply solver_identical|].
    specialize (Hstrict eq_refl). lia. }
  pose proof (ceiling_multiple_exact dense coarse ltac:(lia) Hmod) as Htop.
  destruct (solver_search_pool n dense coarse include_identical)
    as (s & -> & Hcheap); [lia..|].
  f_equal.
  pose proof (cheapest_elem_of _ _ Hcheap) as Hin.
  apply pool_commensurate_above in Hin as (Hnd & Hnc & _); [|lia..].
  destruct Hcheap as (idx & Hidx & Hmin).
  pose proof (pool_head dense coarse include_identical) as Hhead.
  rewrite Htop in Hhead.
  destruct idx as [|idx]; [by simplify_eq|].
  destruct (Hmin 0%nat _ Hhead) as [_ Hlt].
  specialize (Hlt ltac:(lia)). destruct s as [d c].
  unfold total in Hlt. simpl in *. lia.
Qed.

(** ** What the pool and the choice give *)

(** X1.  For [1 <= coarse < dense < 2^53] the two nested loops leave in
    [valid_solutions] exactly the list [pool]: the multiple of [coarse] at
    or above [dense] paired with [coarse], the identical pair if allowed,
    and then, for each [new_dense] from [dense] up to that multiple
    (excluded) in increasing order, the pairs [(new_dense, new_coarse)]
    with [new_coarse] a divisor of [new_dense] in [[coarse, lim)], in
    increasing order. *)
Theorem candidates_pool (dense coarse : Z) (include_identical : bool) :
  1 ≤ coarse → coarse < dense → dense < 2 ^ 53 →
  candidates dense coarse include_identical
  = Return (pool dense coarse include_identical).
Proof. intros Hc Hd H53. apply candidates_closed_form; lia. Qed.

Lemma candidates_pool_witness :
  1 ≤ 2 ∧ 2 < 5 ∧ 5 < 2 ^ 53
  ∧ candidates 5 2 true = Return (pool 5 2 true).
Proof.
  split; [lia|]. split; [lia|]. split; [lia|].
  apply (candidates_pool 5 2 true); lia.
Defined.

(** X2.  On inputs from 1 to below 2^51 the pair returned has the least
    sum among all pairs [(d, c)] with [d >= dense], [c >= coarse] and
    [d % c == 0] (and [c < d] when [include_identical] is false), and is
    itself such a pair: it is "the minimum possible solution" of the
    docstring. *)
Theorem solver_minimal_sum (fuel : nat) (dense coarse : Z)
    (include_identical : bool) :
  1 ≤ dense < 2 ^ 51 → 1 ≤ coarse < 2 ^ 51 → (2 ≤ fuel)%nat →
  ∃ new_dense new_coarse,
    find_commensurate_integers fuel dense coarse include_identical
      = Return (new_dense, new_coarse)
    ∧ commensurate_above dense coarse include_identical
        (new_dense, new_coarse)
    ∧ ∀ d c, commensurate_above dense coarse include_identical (d, c) →
             new_dense + new_coarse ≤ d + c.
Proof.
  intros Hd Hc Hfuel.
  destruct (solver_optimal fuel dense coarse include_identical Hd Hc Hfuel)
    as ([nd nc] & Hrun & Habove & _ & Hmin).
  exists nd, nc. split; [done|]. split; [done|].
  intros d c Ht. exact (Hmin (d, c) Ht).
Qed.

Lemma solver_minimal_sum_witness :
  1 ≤ 11 < 2 ^ 51 ∧ 1 ≤ 5 < 2 ^ 51 ∧ (2 ≤ 2)%nat ∧
  ∃ new_dense new_coarse,
    find_commensurate_integers 2 11 5 true = Return (new_dense, new_coarse)
    ∧ commensurate_above 11 5 true (new_dense, new_coarse)
    ∧ ∀ d c, commensurate_above 11 5 true (d, c) →
             new_dense + new_coarse ≤ d + c.
Proof.
  split; [lia|]. split; [lia|]. split; [lia|].
  apply (solver_minimal_sum 2 11 5 true); lia.
Defined.

(** X3.  A pair that is commensurate already is returned unchanged: for
    [1 <= coarse <= dense < 2^52] with [dense % coarse == 0] (and
    [coarse < dense] when [include_identical] is false) the result is
    [(dense, coarse)]. *)
Theorem commensurate_input_unchanged (fuel : nat) (dense coarse : Z)
    (include_identical : bool) :
  1 ≤ coarse → coarse ≤ dense → dense < 2 ^ 52 → dense `mod` coarse = 0 →
  (include_identical = false → coarse < dense) → (1 ≤ fuel)%nat →
  find_commensurate_integers fuel dense coarse include_identical
  = Return (dense, coarse).
Proof. apply solver_fixed. Qed.

Lemma commensurate_input_unchanged_witness :
  1 ≤ 4 ∧ 4 ≤ 12 ∧ 12 < 2 ^ 52 ∧ 12 `mod` 4 = 0 ∧ (false = false → 4 < 12)
  ∧ (1 ≤ 1)%nat
  ∧ find_commensurate_integers 1 12 4 false = Return (12, 4).
Proof.
  split; [lia|]. split; [lia|]. split; [lia|]. split; [reflexivity|].
  split; [lia|]. split; [lia|].
  apply (commensurate_input_unchanged 1 12 4 false);
    [lia|lia|lia|reflexivity|lia|lia].
Defined.

(** X4.  The solver is idempotent on inputs from 1 to below 2^51: called
    again on the pair it returned, with the same [include_identical], it
    returns that pair. *)
Theorem solver_idempotent (fuel : nat) (dense coarse : Z)
    (include_identical : bool) :
  1 ≤ dense < 2 ^ 51 → 1 ≤ coarse < 2 ^ 51 → (2 ≤ fuel)%nat →
  ∃ new_dense new_coarse,
    find_commensurate_integers fuel dense coarse include_identical
      = Return (new_dense, new_coarse)
    ∧ find_commensurate_integers fuel new_dense new_coarse include_identical
      = Return (new_dense, new_coarse).
Proof.
  intros Hd Hc Hfuel.
  destruct (solver_optimal fuel dense coarse include_identical Hd Hc Hfuel)
    as ([nd nc] & Hrun & (Hnd & Hnc & Hmod & Hstrict) & H52 & _).
  simpl in *. exists nd, nc. split; [done|].
  apply solver_fixed; [lia| |done|done|done|lia].
  apply divisor_le; [lia..|done].
Qed.

Lemma solver_idempotent_witness :
  1 ≤ 11 < 2 ^ 51 ∧ 1 ≤ 5 < 2 ^ 51 ∧ (2 ≤ 2)%nat ∧
  ∃ new_dense new_coarse,
    find_commensurate_integers 2 11 5 true = Return (new_dense, new_coarse)
    ∧ find_commensurate_integers 2 new_dense new_coarse true
      = Return (new_dense, new_coarse).
Proof.
  split; [lia|]. split; [lia|]. split; [lia|].
  apply (solver_idempotent 2 11 5 true); lia.
Defined.

(** X5.  For [1 <= dense < 2^53] and [1 <= coarse < 2^53 - 1] the returned
    coarse count never exceeds the returned dense count, whichever of the
    inputs was the larger, and it is strictly smaller when
    [include_identical] is false. *)
Theorem coarse_not_above_dense (fuel : nat) (dense coarse : Z)
    (include_identical : bool) :
  1 ≤ dense < 2 ^ 53 → 1 ≤ coarse < 2 ^ 53 - 1 → (2 ≤ fuel)%nat →
  ∃ new_dense new_coarse,
    find_commensurate_integers fuel dense coarse include_identical
      = Return (new_dense, new_coarse)
    ∧ 1 ≤ new_coarse ≤ new_dense
    ∧ (include_identical = false → new_coarse < new_dense).
Proof.
  intros Hd Hc Hfuel.
  destruct (solver_sound fuel dense coarse include_identical Hd Hc Hfuel)
    as ([nd nc] & Hrun & Hnd & Hnc & Hmod & Hstrict).
  simpl in *. exists nd, nc. split; [done|]. split; [|done].
  pose proof (divisor_le nd nc ltac:(lia) ltac:(lia) Hmod). lia.
Qed.

Lemma coarse_not_above_dense_witness :
  1 ≤ 3 < 2 ^ 53 ∧ 1 ≤ 5 < 2 ^ 53 - 1 ∧ (2 ≤ 2)%nat ∧
  ∃ new_dense new_coarse,
    find_commensurate_integers 2 3 5 false = Return (new_dense, new_coarse)
    ∧ 1 ≤ new_coarse ≤ new_dense
    ∧ (false = false → new_coarse < new_dense).
Proof.
  split; [lia|]. split; [lia|]. split; [lia|].
  apply (coarse_not_above_dense 2 3 5 false); lia.
Defined.

(** X6.  For [1 <= coarse < dense < 2^51] the two increments together stay
    below [coarse]; in particular the coarse count does not double.  With
    [include_identical] the sum of the result is at most [2 * dense]. *)
Theorem total_growth_bounded (fuel : nat) (dense coarse : Z)
    (include_identical : bool) :
  1 ≤ coarse → coarse < dense → dense < 2 ^ 51 → (1 ≤ fuel)%nat →
  ∃ new_dense new_coarse,
    find_commensurate_integers fuel dense coarse include_identical
      = Return (new_dense, new_coarse)
    ∧ (new_dense - dense) + (new_coarse - coarse) < coarse
    ∧ new_coarse < 2 * coarse
    ∧ (include_identical = true → new_dense + new_coarse ≤ 2 * dense).
Proof.
  intros Hc Hd H51 Hfuel. destruct fuel as [|n]; [lia|].
  assert (2 ^ 52 = 2 * 2 ^ 51) as H52 by done.
  pose proof (ceil_pos_bounds dense coarse ltac:(lia)) as Hceil.
  simpl in Hceil. fold (ceiling_multiple dense coarse) in Hceil.
  destruct (solver_search_pool n dense coarse include_identical)
    as ([nd nc] & Hrun & Hcheap); [lia..|].
  pose proof (cheapest_elem_of _ _ Hcheap) as Hin.
  apply pool_commensurate_above in Hin as (Hnd & Hnc & _); [|lia..].
  assert (Hfirst :
    total (nd, nc) ≤ total (ceiling_multiple dense coarse, coarse)).
  { apply (cheapest_least _ _ _ Hcheap). apply elem_of_pool. by left. }
  unfold total in Hfirst. simpl in Hfirst, Hnd, Hnc.
  exists nd, nc. split; [done|]. split; [lia|]. split; [lia|].
  intros ->.
  assert (Hsame : total (nd, nc) ≤ total (dense, dense)).
  { apply (cheapest_least _ _ _ Hcheap). apply elem_of_pool. right; by left. }
  unfold total in Hsame. simpl in Hsame. lia.
Qed.

Lemma total_growth_bounded_witness :
  1 ≤ 5 ∧ 5 < 11 ∧ 11 < 2 ^ 51 ∧ (1 ≤ 1)%nat ∧
  ∃ new_dense new_coarse,
    find_commensurate_integers 1 11 5 true = Return (new_dense, new_coarse)
    ∧ (new_dense - 11) + (new_coarse - 5) < 5
    ∧ new_coarse < 2 * 5
    ∧ (true = true → new_dense + new_coarse ≤ 2 * 11).
Proof.
  split; [lia|]. split; [lia|]. split; [lia|]. split; [lia|].
  apply (total_growth_bounded 1 11 5 true); lia.
Defined.

(** X17.  Ties go to the first candidate: for [1 <= coarse < dense < 2^51]
    the result is the multiple of [coarse] at or above [dense], paired with
    [coarse] itself, unless some other pair has a strictly smaller sum; the
    coarse count is changed only for a strictly smaller sum. *)
Theorem coarse_kept_on_ties (fuel : nat) (dense coarse : Z)
    (include_identical : bool) :
  1 ≤ coarse → coarse < dense → dense < 2 ^ 51 → (1 ≤ fuel)%nat →
  ∃ new_dense new_coarse,
    find_commensurate_integers fuel dense coarse include_identical
      = Return (new_dense, new_coarse)
    ∧ ((new_dense, new_coarse) = (ceiling_multiple dense coarse, coarse)
       ∨ new_dense + new_coarse < ceiling_multiple dense coarse + coarse).
Proof.
  intros Hc Hd H51 Hfuel. destruct fuel as [|n]; [lia|].
  assert (2 ^ 52 = 2 * 2 ^ 51) as H52 by done.
  pose proof (ceil_pos_bounds dense coarse ltac:(lia)) as Hceil.
  simpl in Hceil. fold (ceiling_multiple dense coarse) in Hceil.
  destruct (solver_search_pool n dense coarse include_identical)
    as ([nd nc] & -> & idx & Hidx & Hmin); [lia..|].
  exists nd, nc. split; [done|].
  pose proof (pool_head dense coarse include_identical) as Hhead.
  destruct idx as [|idx]; [left; by simplify_eq|].
  right. destruct (Hmin 0%nat _ Hhead) as [_ Hlt].
  specialize (Hlt ltac:(lia)). exact Hlt.
Qed.

Lemma coarse_kept_on_ties_witness :
  1 ≤ 2 ∧ 2 < 5 ∧ 5 < 2 ^ 51 ∧ (1 ≤ 1)%nat ∧
  ∃ new_dense new_coarse,
    find_commensurate_integers 1 5 2 true = Return (new_dense, new_coarse)
    ∧ ((new_dense, new_coarse) = (ceiling_multiple 5 2, 2)
       ∨ new_dense + new_coarse < ceiling_multiple 5 2 + 2).
Proof.
  split; [lia|]. split; [lia|]. split; [lia|]. split; [lia|].
  apply (coarse_kept_on_ties 1 5 2 true); lia.
Defined.

(** * Further properties of the driver *)

Lemma meshes_unfold (fuel : nat) (d0 d1 d2 c0 c1 c2 : Z) :
  find_commensurate_meshes fuel [d0; d1; d2] [c0; c1; c2]
  = ('(nd0, nc0) ← find_commensurate_integers fuel d0 c0 true;
     '(nd1, nc1) ← find_commensurate_integers fuel d1 c1 true;
     '(nd2, nc2) ← find_commensurate_integers fuel d2 c2 true;
     Return {| dense_mesh := [nd0; nd1; nd2];
               coarse_mesh := [nc0; nc1; nc2] |}).
Proof.
  unfold find_commensurate_meshes. cbv -[find_commensurate_integers].
  destruct (find_commensurate_integers fuel d0 c0 true) as [[nd0 nc0]| |];
    [|done..].
  destruct (find_commensurate_integers fuel d1 c1 true) as [[nd1 nc1]| |];
    [|done..].
  by destruct (find_commensurate_integers fuel d2 c2 true) as [[nd2 nc2]| |].
Qed.

Lemma length_three {A} (l : list A) :
  length l = 3%nat → ∃ x0 x1 x2, l = [x0; x1; x2].
Proof.
  destruct l as [|x0 [|x1 [|x2 [|x3 l]]]]; intros H; simplify_eq/=.
  by exists x0, x1, x2.
Qed.

(** One axis: the solver returns, and the pair is commensurate and not
    below the inputs. *)
Lemma solver_axis (fuel : nat) (d c : Z) :
  1 ≤ d < 2 ^ 53 → 1 ≤ c < 2 ^ 53 - 1 → (2 ≤ fuel)%nat →
  ∃ d' c',
    find_commensurate_integers fuel d c true = Return (d', c')
    ∧ axis_commensurate d c d' c'.
Proof.
  intros Hd Hc Hfuel.
  destruct (solver_sound fuel d c true Hd Hc Hfuel)
    as ([d' c'] & Hrun & Hnd & Hnc & Hmod & _).
  simpl in *. exists d', c'.
  pose proof (divisor_le d' c' ltac:(lia) ltac:(lia) Hmod).
  split; [done|]. unfold axis_commensurate. lia.
Qed.

(** One axis below 2^51: a second call leaves the pair as it is. *)
Lemma solver_axis_again (fuel : nat) (d c : Z) :
  1 ≤ d < 2 ^ 51 → 1 ≤ c < 2 ^ 51 → (2 ≤ fuel)%nat →
  ∃ d' c',
    find_commensurate_integers fuel d c true = Return (d', c')
    ∧ find_commensurate_integers fuel d' c' true = Return (d', c').
Proof.
  intros Hd Hc Hfuel.
  destruct (solver_optimal fuel d c true Hd Hc Hfuel)
    as ([d' c'] & Hrun & (Hnd & Hnc & Hmod & _) & H52 & _).
  simpl in *. exists d', c'.
  pose proof (divisor_le d' c' ltac:(lia) ltac:(lia) Hmod).
  split; [done|]. apply solver_fixed; (lia || done).
Qed.

(** X7.  On two meshes of three counts, the dense ones from 1 to below
    2^53 and the coarse ones from 1 to below 2^53 - 1, the driver returns
    two meshes of three counts, and on every axis the new dense count is a
    multiple of the new coarse count, neither count has decreased, and the
    new coarse count is not above the new dense one ("the returned dense
    mesh is always larger or equal to the coarse mesh"). *)
Theorem meshes_commensurate (fuel : nat) (dense coarse : list Z) :
  length dense = 3%nat → length coarse = 3%nat →
  Forall (λ d, 1 ≤ d < 2 ^ 53) dense →
  Forall (λ c, 1 ≤ c < 2 ^ 53 - 1) coarse →
  (2 ≤ fuel)%nat →
  ∃ new_dense new_coarse,
    find_commensurate_meshes fuel dense coarse
      = Return {| dense_mesh := new_dense; coarse_mesh := new_coarse |}
    ∧ length new_dense = 3%nat ∧ length new_coarse = 3%nat
    ∧ ∀ (i : nat) d c d' c',
        dense !! i = Some d → coarse !! i = Some c →
        new_dense !! i = Some d' → new_coarse !! i = Some c' →
        axis_commensurate d c d' c'.
Proof.
  intros Hld Hlc Hd Hc Hfuel.
  apply length_three in Hld as (d0 & d1 & d2 & ->).
  apply length_three in Hlc as (c0 & c1 & c2 & ->).
  rewrite !list.Forall_cons in Hd, Hc.
  destruct Hd as (Hd0 & Hd1 & Hd2 & _), Hc as (Hc0 & Hc1 & Hc2 & _).
  destruct (solver_axis fuel d0 c0) as (nd0 & nc0 & Hr0 & Ha0); [done..|].
  destruct (solver_axis fuel d1 c1) as (nd1 & nc1 & Hr1 & Ha1); [done..|].
  destruct (solver_axis fuel d2 c2) as (nd2 & nc2 & Hr2 & Ha2); [done..|].
  exists [nd0; nd1; nd2], [nc0; nc1; nc2].
  rewrite meshes_unfold, Hr0, Hr1, Hr2.
  split; [done|]. split; [done|]. split; [done|].
  intros [|[|[|i]]] d c d' c' ? ? ? ?; by simplify_eq/=.
Qed.

Lemma meshes_commensurate_witness :
  length [5; 11; 3] = 3%nat ∧ length [2; 5; 5] = 3%nat
  ∧ Forall (λ d, 1 ≤ d < 2 ^ 53) [5; 11; 3]
  ∧ Forall (λ c, 1 ≤ c < 2 ^ 53 - 1) [2; 5; 5]
  ∧ (2 ≤ 2)%nat
  ∧ ∃ new_dense new_coarse,
      find_commensurate_meshes 2 [5; 11; 3] [2; 5; 5]
        = Return {| dense_mesh := new_dense; coarse_mesh := new_coarse |}
      ∧ length new_dense = 3%nat ∧ length new_coarse = 3%nat
      ∧ ∀ (i : nat) d c d' c',
          [5; 11; 3] !! i = Some d → [2; 5; 5] !! i = Some c →
          new_dense !! i = Some d' → new_coarse !! i = Some c' →
          axis_commensurate d c d' c'.
Proof.
  assert (Hd : Forall (λ d, 1 ≤ d < 2 ^ 53) [5; 11; 3])
    by (repeat constructor; lia).
  assert (Hc : Forall (λ c, 1 ≤ c < 2 ^ 53 - 1) [2; 5; 5])
    by (repeat constructor; lia).
  split; [reflexivity|]. split; [reflexivity|]. split; [exact Hd|].
  split; [exact Hc|]. split; [lia|].
  apply (meshes_commensurate 2 [5; 11; 3] [2; 5; 5]);
    [reflexivity|reflexivity|exact Hd|exact Hc|lia].
Defined.

(** X8.  The driver is idempotent on meshes of three counts from 1 to
    below 2^51: applied to the two meshes it returned, it returns them
    again. *)
Theorem meshes_idempotent (fuel : nat) (dense coarse : list Z) :
  length dense = 3%nat → length coarse = 3%nat →
  Forall (λ d, 1 ≤ d < 2 ^ 51) dense → Forall (λ c, 1 ≤ c < 2 ^ 51) coarse →
  (2 ≤ fuel)%nat →
  ∃ result,
    find_commensurate_meshes fuel dense coarse = Return result
    ∧ find_commensurate_meshes fuel (dense_mesh result) (coarse_mesh result)
      = Return result.
Proof.
  intros Hld Hlc Hd Hc Hfuel.
  apply length_three in Hld as (d0 & d1 & d2 & ->).
  apply length_three in Hlc as (c0 & c1 & c2 & ->).
  rewrite !list.Forall_cons in Hd, Hc.
  destruct Hd as (Hd0 & Hd1 & Hd2 & _), Hc as (Hc0 & Hc1 & Hc2 & _).
  destruct (solver_axis_again fuel d0 c0) as (nd0 & nc0 & Hr0 & Hf0);
    [done..|].
  destruct (solver_axis_again fuel d1 c1) as (nd1 & nc1 & Hr1 & Hf1);
    [done..|].
  destruct (solver_axis_again fuel d2 c2) as (nd2 & nc2 & Hr2 & Hf2);
    [done..|].
  eexists. rewrite meshes_unfold, Hr0, Hr1, Hr2. split; [done|]. simpl.
  by rewrite meshes_unfold, Hf0, Hf1, Hf2.
Qed.

Lemma meshes_idempotent_witness :
  length [5; 11; 3] = 3%nat ∧ length [2; 5; 5] = 3%nat
  ∧ Forall (λ d, 1 ≤ d < 2 ^ 51) [5; 11; 3]
  ∧ Forall (λ c, 1 ≤ c < 2 ^ 51) [2; 5; 5]
  ∧ (2 ≤ 2)%nat
  ∧ ∃ result,
      find_commensurate_meshes 2 [5; 11; 3] [2; 5; 5] = Return result
      ∧ find_commensurate_meshes 2 (dense_mesh result) (coarse_mesh result)
        = Return result.
Proof.
  assert (Hd : Forall (λ d, 1 ≤ d < 2 ^ 51) [5; 11; 3])
    by (repeat constructor; lia).
  assert (Hc : Forall (λ c, 1 ≤ c < 2 ^ 51) [2; 5; 5])
    by (repeat constructor; lia).
  split; [reflexivity|]. split; [reflexivity|]. split; [exact Hd|].
  split; [exact Hc|]. split; [lia|].
  apply (meshes_idempotent 2 [5; 11; 3] [2; 5; 5]);
    [reflexivity|reflexivity|exact Hd|exact Hc|lia].
Defined.

(** X9.  Two meshes of three counts that are commensurate already, the
    coarse count dividing the dense one on every axis and the dense counts
    being below 2^52, are returned unchanged. *)
Theorem meshes_unchanged (fuel : nat) (dense coarse : list Z) :
  length dense = 3%nat → length coarse = 3%nat →
  (∀ (i : nat) d c, dense !! i = Some d → coarse !! i = Some c →
     1 ≤ c ≤ d ∧ d < 2 ^ 52 ∧ d `mod` c = 0) →
  (1 ≤ fuel)%nat →
  find_commensurate_meshes fuel dense coarse
  = Return {| dense_mesh := dense; coarse_mesh := coarse |}.
Proof.
  intros Hld Hlc Hax Hfuel.
  apply length_three in Hld as (d0 & d1 & d2 & ->).
  apply length_three in Hlc as (c0 & c1 & c2 & ->).
  destruct (Hax 0%nat d0 c0) as (? & ? & ?); [done..|].
  destruct (Hax 1%nat d1 c1) as (? & ? & ?); [done..|].
  destruct (Hax 2%nat d2 c2) as (? & ? & ?); [done..|].
  rewrite meshes_unfold.
  by rewrite !solver_fixed by (lia || done).
Qed.

Lemma meshes_unchanged_witness :
  length [12; 6; 4] = 3%nat ∧ length [4; 6; 1] = 3%nat
  ∧ (∀ (i : nat) d c, [12; 6; 4] !! i = Some d → [4; 6; 1] !! i = Some c →
       1 ≤ c ≤ d ∧ d < 2 ^ 52 ∧ d `mod` c = 0)
  ∧ (1 ≤ 1)%nat
  ∧ find_commensurate_meshes 1 [12; 6; 4] [4; 6; 1]
    = Return {| dense_mesh := [12; 6; 4]; coarse_mesh := [4; 6; 1] |}.
Proof.
  assert (Hax : ∀ (i : nat) d c,
            [12; 6; 4] !! i = Some d → [4; 6; 1] !! i = Some c →
            1 ≤ c ≤ d ∧ d < 2 ^ 52 ∧ d `mod` c = 0).
  { intros [|[|[|i]]] d c Hd Hc; simplify_eq/=;
      (split; [lia|split; [lia|reflexivity]]). }
  split; [reflexivity|]. split; [reflexivity|]. split; [exact Hax|].
  split; [lia|].
  apply (meshes_unchanged 1 [12; 6; 4] [4; 6; 1]);
    [reflexivity|reflexivity|exact Hax|lia].
Defined.

(** X10.  A zero count in the coarse mesh is not rejected but surfaces as
    the [ZeroDivisionError] of the solver: with three dense counts from 1
    to below 2^53 and three coarse counts from 0 to below 2^53 - 1 of which
    one is zero, the driver raises [ZeroDivisionError] and returns no
    mesh. *)
Theorem meshes_zero_coarse (fuel : nat) (dense coarse : list Z) :
  length dense = 3%nat → length coarse = 3%nat →
  Forall (λ d, 1 ≤ d < 2 ^ 53) dense →
  Forall (λ c, 0 ≤ c < 2 ^ 53 - 1) coarse → 0 ∈ coarse →
  (2 ≤ fuel)%nat →
  find_commensurate_meshes fuel dense coarse = Raise ZeroDivisionError.
Proof.
  intros Hld Hlc Hd Hc Hzero Hfuel.
  apply length_three in Hld as (d0 & d1 & d2 & ->).
  apply length_three in Hlc as (c0 & c1 & c2 & ->).
  rewrite !list.Forall_cons in Hd, Hc.
  destruct Hd as (Hd0 & Hd1 & Hd2 & _), Hc as (Hc0 & Hc1 & Hc2 & _).
  destruct fuel as [|n]; [lia|].
  rewrite meshes_unfold.
  destruct (decide (c0 = 0)) as [->|H0].
  { by rewrite solver_search_zero by lia. }
  destruct (solver_axis (S n) d0 c0) as (nd0 & nc0 & -> & _); [lia..|].
  cbn [mbind outcome_bind].
  destruct (decide (c1 = 0)) as [->|H1].
  { by rewrite solver_search_zero by lia. }
  destruct (solver_axis (S n) d1 c1) as (nd1 & nc1 & -> & _); [lia..|].
  cbn [mbind outcome_bind].
  assert (c2 = 0) as ->.
  { rewrite !elem_of_cons in Hzero.
    destruct Hzero as [?|[?|[?|Hnil]]]; [lia..|done|].
    by apply elem_of_nil in Hnil. }
  by rewrite solver_search_zero by lia.
Qed.

Lemma meshes_zero_coarse_witness :
  length [4; 4; 4] = 3%nat ∧ length [2; 0; 2] = 3%nat
  ∧ Forall (λ d, 1 ≤ d < 2 ^ 53) [4; 4; 4]
  ∧ Forall (λ c, 0 ≤ c < 2 ^ 53 - 1) [2; 0; 2]
  ∧ 0 ∈ [2; 0; 2] ∧ (2 ≤ 2)%nat
  ∧ find_commensurate_meshes 2 [4; 4; 4] [2; 0; 2] = Raise ZeroDivisionError.
Proof.
  assert (Hd : Forall (λ d, 1 ≤ d < 2 ^ 53) [4; 4; 4])
    by (repeat constructor; lia).
  assert (Hc : Forall (λ c, 0 ≤ c < 2 ^ 53 - 1) [2; 0; 2])
    by (repeat constructor; lia).
  assert (Hz : 0 ∈ [2; 0; 2]) by (right; left).
  split; [reflexivity|]. split; [reflexivity|]. split; [exact Hd|].
  split; [exact Hc|]. split; [exact Hz|]. split; [lia|].
  apply (meshes_zero_coarse 2 [4; 4; 4] [2; 0; 2]);
    [reflexivity|reflexivity|exact Hd|exact Hc|exact Hz|lia].
Defined.

(** * Further properties of the mapper *)

Section Mapper.

Variable dense_points : list kpoint.
Variables start_band end_band : Z.

Lemma kmapper_scan_cons (i j : kpoint) (rest : list kpoint) (count : Z)
    (k_list : list Z) :
  kmapper_scan i (j :: rest) count k_list
  = kmapper_scan i rest (count + 1)
      (if matches i j then k_list ++ [count] else k_list).
Proof.
  simpl. unfold matches.
  by destruct (kpoint_around (kpoint_sub i j) 5) as [[q0 q1] q2].
Qed.

(** The scan only appends to the list it is given. *)
Lemma kmapper_scan_app (i : kpoint) (points : list kpoint) (count : Z)
    (k_list : list Z) :
  kmapper_scan i points count k_list
  = k_list ++ kmapper_scan i points count [].
Proof.
  revert count k_list.
  induction points as [|j rest IH]; intros count k_list.
  - simpl. by rewrite app_nil_r.
  - rewrite !kmapper_scan_cons.
    rewrite (IH _ (if matches i j then k_list ++ [count] else k_list)).
    rewrite (IH _ (if matches i j then [] ++ [count] else [])).
    destruct (matches i j); simpl; [|done]. by rewrite <- app_assoc.
Qed.

Lemma kmapper_scan_step (i j : kpoint) (rest : list kpoint) (count : Z) :
  kmapper_scan i (j :: rest) count []
  = (if matches i j then [count] else [])
    ++ kmapper_scan i rest (count + 1) [].
Proof.
  rewrite kmapper_scan_cons, kmapper_scan_app. by destruct (matches i j).
Qed.

(** The positions recorded for one coarse point are those of the dense
    points that pass the test. *)
Lemma elem_of_kmapper_scan (i : kpoint) (points : list kpoint) (count p : Z) :
  p ∈ kmapper_scan i points count [] ↔
    ∃ (n : nat) j,
      points !! n = Some j ∧ matches i j = true ∧ p = count + Z.of_nat n.
Proof.
  revert count. induction points as [|j rest IH]; intros count.
  - simpl. split; [by intros ?%elem_of_nil|]. by intros (n & j' & ? & _).
  - rewrite kmapper_scan_step, elem_of_app, IH. split.
    + intros [Hhere|(n & j' & Hn & Hm & ->)].
      * destruct (matches i j) eqn:Hm; [|by apply elem_of_nil in Hhere].
        apply list_elem_of_singleton in Hhere as ->.
        exists 0%nat, j. split; [done|]. split; [done|]. lia.
      * exists (S n), j'. split; [done|]. split; [done|]. lia.
    + intros ([|n] & j' & Hn & Hm & ->); simplify_eq/=.
      * left. rewrite Hm. apply list_elem_of_singleton. lia.
      * right. exists n, j'. split; [done|]. split; [done|]. lia.
Qed.

(** They come in increasing order, from [count] on. *)
Lemma kmapper_scan_sorted (i : kpoint) (points : list kpoint) (count : Z) :
  StronglySorted Z.lt (kmapper_scan i points count []).
Proof.
  revert count. induction points as [|j rest IH]; intros count.
  - constructor.
  - rewrite kmapper_scan_step.
    assert (Hlater : Forall (Z.lt count) (kmapper_scan i rest (count + 1) [])).
    { apply list.Forall_forall. intros p Hp.
      apply elem_of_kmapper_scan in Hp as (n & _ & _ & _ & ->). lia. }
    destruct (matches i j); simpl; [|by apply IH].
    constructor; [by apply IH|done].
Qed.

Lemma kmapper_scan_length (i : kpoint) (points : list kpoint) (count : Z) :
  (length (kmapper_scan i points count []) ≤ length points)%nat.
Proof.
  revert count. induction points as [|j rest IH]; intros count.
  - done.
  - rewrite kmapper_scan_step, length_app. specialize (IH (count + 1)).
    destruct (matches i j); simpl; lia.
Qed.

(** The outer loop chains the scans of the coarse points. *)
Lemma kmapper_fold (coarse_points : list kpoint) (k_list : list Z) :
  fold_left (λ k_list i, kmapper_scan i dense_points 1 k_list)
    coarse_points k_list
  = k_list ++ (coarse_points ≫= λ i, kmapper_scan i dense_points 1 []).
Proof.
  revert k_list. induction coarse_points as [|i rest IH]; intros k_list.
  - simpl. by rewrite app_nil_r.
  - simpl. rewrite IH, (kmapper_scan_app i). by rewrite <- app_assoc.
Qed.

Lemma kmapper_closed_form (coarse_points : list kpoint) :
  kmapper dense_points coarse_points start_band end_band
  = (λ p, (p, p, start_band, end_band))
      <$> (coarse_points ≫= λ i, kmapper_scan i dense_points 1 []).
Proof. unfold kmapper. by rewrite kmapper_fold. Qed.

End Mapper.

(** ** Coordinates that are not finite, and equal points *)

Lemma sub_self (x : Float64.t) :
  is_finite x = true → Float64.sub x x = S754_zero false.
Proof.
  destruct x as [[]|[]| |s m e]; intros Hx; try done.
  unfold Float64.sub, SFsub. by rewrite Z.sub_diag.
Qed.

Lemma around_zero : Np.around (S754_zero false) 5 = S754_zero false.
Proof. vm_compute. reflexivity. Qed.

Lemma zero_in_opt : Np.contains opt (S754_zero false) = true.
Proof. vm_compute. reflexivity. Qed.

Lemma matches_self (i : kpoint) : kpoint_finite i = true → matches i i = true.
Proof.
  destruct i as [[i0 i1] i2]. unfold kpoint_finite.
  rewrite !andb_true_iff. intros [[H0 H1] H2].
  unfold matches, kpoint_sub, kpoint_around.
  by rewrite !sub_self, !around_zero, !zero_in_opt.
Qed.

Lemma sub_not_finite (x y : Float64.t) :
  is_finite x = false ∨ is_finite y = false →
  is_finite (Float64.sub x y) = false.
Proof.
  destruct x as [[]|[]| |sx mx ex], y as [[]|[]| |sy my ey];
    intros [H|H]; try discriminate H; reflexivity.
Qed.

Lemma around_not_finite (x : Float64.t) :
  is_finite x = false → is_finite (Np.around x 5) = false.
Proof.
  destruct x as [s|[]| |s m e]; intros H; try discriminate H;
    vm_compute; reflexivity.
Qed.

Lemma not_finite_not_in_opt (x : Float64.t) :
  is_finite x = false → Np.contains opt x = false.
Proof.
  destruct x as [s|[]| |s m e]; intros H; try discriminate H;
    vm_compute; reflexivity.
Qed.

Lemma coordinate_not_finite (x y : Float64.t) :
  is_finite x = false ∨ is_finite y = false →
  Np.contains opt (Np.around (Float64.sub x y) 5) = false.
Proof.
  intros H. by apply not_finite_not_in_opt, around_not_finite, sub_not_finite.
Qed.

Lemma kpoint_not_finite (i : kpoint) :
  kpoint_finite i = false →
  is_finite i.1.1 = false ∨ is_finite i.1.2 = false ∨ is_finite i.2 = false.
Proof.
  destruct i as [[i0 i1] i2]. unfold kpoint_finite. simpl.
  destruct (is_finite i0), (is_finite i1), (is_finite i2); simpl; auto.
Qed.

Lemma matches_not_finite (i j : kpoint) :
  kpoint_finite i = false ∨ kpoint_finite j = false → matches i j = false.
Proof.
  intros H.
  assert (Hcoord :
    (is_finite i.1.1 = false ∨ is_finite j.1.1 = false)
    ∨ (is_finite i.1.2 = false ∨ is_finite j.1.2 = false)
    ∨ (is_finite i.2 = false ∨ is_finite j.2 = false)).
  { destruct H as [H|H]; apply kpoint_not_finite in H as [H|[H|H]]; auto. }
  destruct i as [[i0 i1] i2], j as [[j0 j1] j2]. simpl in Hcoord.
  unfold matches, kpoint_sub, kpoint_around.
  destruct Hcoord as [Hc|[Hc|Hc]]; apply coordinate_not_finite in Hc;
    rewrite Hc; by rewrite ?andb_false_r.
Qed.

(** ** The result of [kmapper] *)

Lemma elem_of_kmapper (dense_points coarse_points : list kpoint)
    (start_band end_band : Z) (entry : Z * Z * Z * Z) :
  entry ∈ kmapper dense_points coarse_points start_band end_band ↔
    ∃ i (n : nat) j,
      i ∈ coarse_points ∧ dense_points !! n = Some j ∧ matches i j = true
      ∧ entry = (Z.of_nat n + 1, Z.of_nat n + 1, start_band, end_band).
Proof.
  rewrite kmapper_closed_form, list_elem_of_fmap. split.
  - intros (p & -> & Hp). apply list_elem_of_bind in Hp as (i & Hp & Hi).
    apply elem_of_kmapper_scan in Hp as (n & j & Hn & Hm & ->).
    exists i, n, j. split; [done|]. split; [done|]. split; [done|].
    by rewrite (Z.add_comm 1).
  - intros (i & n & j & Hi & Hn & Hm & ->).
    exists (Z.of_nat n + 1). split; [done|].
    apply list_elem_of_bind. exists i. split; [|done].
    apply elem_of_kmapper_scan. exists n, j.
    split; [done|]. split; [done|]. lia.
Qed.

(** X11.  The entries of the result are exactly the tuples
    [(p, p, start_band, end_band)] where [p] is the 1-based position of a
    dense point that passes the test against some coarse point: both index
    fields hold the dense position, the band range is passed through, and
    nothing else is ever emitted. *)
Theorem kmapper_entries (dense_points coarse_points : list kpoint)
    (start_band end_band : Z) (entry : Z * Z * Z * Z) :
  entry ∈ kmapper dense_points coarse_points start_band end_band ↔
    ∃ i (n : nat) j,
      i ∈ coarse_points ∧ dense_points !! n = Some j ∧ matches i j = true
      ∧ entry = (Z.of_nat n + 1, Z.of_nat n + 1, start_band, end_band).
Proof. apply elem_of_kmapper. Qed.

(** X12.  The coarse points are handled one after the other and
    independently: the result for a concatenation of coarse point sets is
    the concatenation of the results. *)
Theorem kmapper_coarse_app (dense_points coarse1 coarse2 : list kpoint)
    (start_band end_band : Z) :
  kmapper dense_points (coarse1 ++ coarse2) start_band end_band
  = kmapper dense_points coarse1 start_band end_band
    ++ kmapper dense_points coarse2 start_band end_band.
Proof. by rewrite !kmapper_closed_form, bind_app, fmap_app. Qed.

(** X13.  For one coarse point the recorded positions are strictly
    increasing, so no dense position is recorded twice for it, and they lie
    between 1 and the number of dense points. *)
Theorem kmapper_block_sorted (dense_points : list kpoint) (i : kpoint)
    (start_band end_band : Z) :
  ∃ positions,
    kmapper dense_points [i] start_band end_band
      = (λ p, (p, p, start_band, end_band)) <$> positions
    ∧ StronglySorted Z.lt positions
    ∧ Forall (λ p, 1 ≤ p ≤ Z.of_nat (length dense_points)) positions.
Proof.
  exists (kmapper_scan i dense_points 1 []). split; [|split].
  - rewrite kmapper_closed_form. simpl. by rewrite app_nil_r.
  - apply kmapper_scan_sorted.
  - apply list.Forall_forall. intros p Hp.
    apply elem_of_kmapper_scan in Hp as (n & j & Hn & _ & ->).
    apply lookup_lt_Some in Hn. lia.
Qed.

(** X14.  The result has at most one entry per pair of a coarse and a dense
    point; it is empty when either point set is empty. *)
Theorem kmapper_length (dense_points coarse_points : list kpoint)
    (start_band end_band : Z) :
  (length (kmapper dense_points coarse_points start_band end_band)
   ≤ length coarse_points * length dense_points)%nat.
Proof.
  rewrite kmapper_closed_form, length_fmap.
  induction coarse_points as [|i rest IH]; [done|].
  rewrite bind_cons, length_app. simpl.
  pose proof (kmapper_scan_length i dense_points 1). lia.
Qed.

(** X15.  A coarse point that occurs in the dense set, with finite
    coordinates, is matched there: if the dense point at index [n] is the
    coarse point [i], the entry for position [n + 1] is in the result. *)
Theorem kmapper_finds_equal_point (dense_points coarse_points : list kpoint)
    (start_band end_band : Z) (i : kpoint) (n : nat) :
  i ∈ coarse_points → dense_points !! n = Some i → kpoint_finite i = true →
  (Z.of_nat n + 1, Z.of_nat n + 1, start_band, end_band)
    ∈ kmapper dense_points coarse_points start_band end_band.
Proof.
  intros Hi Hn Hfin. rewrite kmapper_closed_form.
  apply (list_elem_of_fmap_2 (λ p, (p, p, start_band, end_band))).
  apply list_elem_of_bind. exists i. split; [|done].
  apply elem_of_kmapper_scan. exists n, i.
  split; [done|]. split; [by apply matches_self|]. lia.
Qed.

Lemma kmapper_finds_equal_point_witness :
  (half, zero, zero) ∈ [(zero, zero, zero); (half, zero, zero)]
  ∧ dense_three !! 2%nat = Some (half, zero, zero)
  ∧ kpoint_finite (half, zero, zero) = true
  ∧ (Z.of_nat 2 + 1, Z.of_nat 2 + 1, 1, 4)
      ∈ kmapper dense_three [(zero, zero, zero); (half, zero, zero)] 1 4.
Proof.
  assert (Hin : (half, zero, zero)
                  ∈ [(zero, zero, zero); (half, zero, zero)])
    by (right; left).
  split; [exact Hin|]. split; [reflexivity|]. split; [reflexivity|].
  apply (kmapper_finds_equal_point dense_three
           [(zero, zero, zero); (half, zero, zero)] 1 4 (half, zero, zero) 2);
    [exact Hin|reflexivity|reflexivity].
Defined.

(** X16.  A point with an infinite or NaN coordinate is never matched: a
    coarse point of this kind contributes no entry, and the position of a
    dense point of this kind occurs in no entry. *)
Theorem kmapper_skips_not_finite (dense_points coarse_points : list kpoint)
    (start_band end_band : Z) :
  (∀ i, kpoint_finite i = false →
        kmapper dense_points [i] start_band end_band = [])
  ∧ (∀ (n : nat) j, dense_points !! n = Some j → kpoint_finite j = false →
        (Z.of_nat n + 1, Z.of_nat n + 1, start_band, end_band)
          ∉ kmapper dense_points coarse_points start_band end_band).
Proof.
  split.
  - intros i Hi.
    destruct (kmapper dense_points [i] start_band end_band)
      as [|entry rest] eqn:Hk; [done|].
    assert (Hin : entry ∈ kmapper dense_points [i] start_band end_band)
      by (rewrite Hk; left).
    apply elem_of_kmapper in Hin as (i' & n & j & Hi' & _ & Hm & _).
    apply list_elem_of_singleton in Hi' as ->.
    rewrite matches_not_finite in Hm by (by left). done.
  - intros n j Hn Hj Hin.
    apply elem_of_kmapper in Hin as (i & n' & j' & _ & Hn' & Hm & Heq).
    assert (n' = n) as -> by (simplify_eq; lia).
    rewrite Hn in Hn'. simplify_eq.
    rewrite matches_not_finite in Hm by (by right). done.
Qed.

Lemma kmapper_skips_not_finite_witness :
  kpoint_finite (S754_nan, zero, zero) = false
  ∧ kmapper dense_three [(S754_nan, zero, zero)] 1 4 = [].
Proof.
  split; [reflexivity|].
  apply (proj1 (kmapper_skips_not_finite dense_three [] 1 4)). reflexivity.
Defined.
